(** * Data mesh: pattern generator, mesh node, mesh network, mesh observer

    A shallow embedding of the synchronisation core of the data mesh
    (core/pattern.ts, core/mesh-node.ts, core/mesh-network.ts,
    core/mesh-observer.ts, utils/validation, utils/performance-monitor.ts
    and demo/synchronization-demo.ts) and the properties its specification
    states about it.

    What the embedding takes for granted:
    - seeds, intervals and steps are integers; the arithmetic on them is
      that of the doubles: a sum or product is the double nearest to the
      exact result, and [String] prints the shortest decimal that reads
      back as the double;
    - the engine's call stack has room for a number of nested calls of
      [computeValue] that the world records ([stack]); a recursion that
      needs more throws the engine's RangeError;
    - the functions a caller registers as listeners do nothing to the mesh;
      their invocations are recorded, in order;
    - [Date.now()] and [performance.now()] are arguments of the methods
      that read them. *)

From Stdlib Require Import ZArith Lia List String Ascii Wf_nat.
From Stdlib Require Import DecimalString DecimalPos DecimalZ.
From Stdlib Require Import Uint63 Floats.
From stdpp Require Import gmap strings.
From Equations Require Import Equations.
Import ListNotations.

Local Open Scope Z_scope.

(** ** JavaScript numbers, as far as this program uses them

    Seeds, intervals and steps are integers, and so is every product the
    generator forms, or it is an infinity.  [parseInt] of a character that
    is no digit (a sign, the [e] of an exponent) and [step % 0] are NaN. *)

Inductive number : Type :=
| Num (z : Z)
| NaN
| Infinity (negative : bool).

Module Number.

(** The double nearest to an integer: up to 2^53 the integer itself, beyond
    it the nearest integer with a mantissa of 53 bits, the even mantissa
    when two are equally near.  The exponent is not bounded here. *)
Definition round (z : Z) : Z :=
  let a := Z.abs z in
  if a <=? 2 ^ 53 then z
  else
    let e := Z.log2 a - 52 in
    let m := a / 2 ^ e in
    let r := a mod 2 ^ e in
    let half := 2 ^ (e - 1) in
    let m' := if r <? half then m
              else if half <? r then m + 1
              else if Z.even m then m else m + 1 in
    Z.sgn z * (m' * 2 ^ e).

(** The number an exact integer result becomes: the nearest double, an
    infinity from 2^1024 on. *)
Definition of_Z (z : Z) : number :=
  let r := round z in
  if Z.abs r <? 2 ^ 1024 then Num r else Infinity (z <? 0).

(** [x++] on a step: the double nearest to [x + 1].  For a double [x] that
    is never below [x] (from 2^53 on it can be [x] itself), so the maximum
    changes nothing there ([increment_double] below); it only keeps the
    function monotone on the integers that are no doubles, which no step of
    the program ever is. *)
Definition increment (x : Z) : Z := Z.max x (round (x + 1)).

Definition add (a b : number) : number :=
  match a, b with
  | Num x, Num y => of_Z (x + y)
  | Infinity s, Infinity s' => if Bool.eqb s s' then Infinity s else NaN
  | Infinity s, Num _ | Num _, Infinity s => Infinity s
  | _, _ => NaN
  end.

Definition mul (a b : number) : number :=
  match a, b with
  | Num x, Num y => of_Z (x * y)
  | Infinity s, Infinity s' => Infinity (xorb s s')
  | Infinity s, Num y | Num y, Infinity s =>
      if y =? 0 then NaN else Infinity (xorb s (y <? 0))
  | _, _ => NaN
  end.

(** [a % b]: the remainder takes the sign of the dividend; [x % 0] is NaN. *)
Definition rem (a b : number) : number :=
  match a, b with
  | Num x, Num y => if y =? 0 then NaN else Num (Z.rem x y)
  | Num x, Infinity _ => Num x
  | _, _ => NaN
  end.

(** [a > b]: false as soon as one side is NaN. *)
Definition gt (a b : number) : bool :=
  match a, b with
  | Num x, Num y => x >? y
  | Infinity false, Num _ | Num _, Infinity true => true
  | Infinity false, Infinity true => true
  | _, _ => false
  end.

(** [a === b]: NaN is not equal to itself. *)
Definition strict_eq (a b : number) : bool :=
  match a, b with
  | Num x, Num y => x =? y
  | Infinity s, Infinity s' => Bool.eqb s s'
  | _, _ => false
  end.

(** [a !== b]. *)
Definition strict_ne (a b : number) : bool := negb (strict_eq a b).

(** The least [n] from [n] on with [a < 10^n]. *)
Fixpoint digits_from (fuel : nat) (n a : Z) : Z :=
  match fuel with
  | O => n
  | S fuel' => if a <? 10 ^ n then n else digits_from fuel' (n + 1) a
  end.

(** How many decimal digits a positive integer has (a double has at most
    309). *)
Definition decimal_length (a : Z) : Z := digits_from 400 1 a.

(** The decimals with [k] digits next to [a], if one of them reads back as
    [a]: the nearer one, the even one of two equally near; if none does,
    the same with one digit more. *)
Fixpoint shortest_from (fuel : nat) (k n a : Z) : Z :=
  match fuel with
  | O => a
  | S fuel' =>
      let p := 10 ^ (n - k) in
      let lo := a / p * p in
      let hi := lo + p in
      let lo_ok := round lo =? a in
      let hi_ok := round hi =? a in
      if lo_ok && hi_ok
      then (if a - lo <? hi - a then lo
            else if hi - a <? a - lo then hi
            else if Z.even (a / p) then lo else hi)
      else if lo_ok then lo
      else if hi_ok then hi
      else shortest_from fuel' (k + 1) n a
  end.

(** The decimal with the fewest significant digits that reads back as the
    double [a]. *)
Definition shortest (a : Z) : Z :=
  let n := decimal_length a in shortest_from (Z.to_nat n) 1 n a.

(** The [k] last decimal digits of [a], the most significant first. *)
Fixpoint decimals (k : nat) (a : Z) : list Z :=
  match k with
  | O => []
  | S k' => (a / 10 ^ Z.of_nat k') mod 10 :: decimals k' a
  end.

Definition digit (d : Z) : ascii := ascii_of_N (48 + Z.to_N d).

Definition numeral (k : nat) (a : Z) : string :=
  string_of_list_ascii (map digit (decimals k a)).

(** [a] without its trailing zeros. *)
Fixpoint strip (fuel : nat) (a : Z) : Z :=
  match fuel with
  | O => a
  | S fuel' => if a mod 10 =? 0 then strip fuel' (a / 10) else a
  end.

(** [String(a)] for a double above 2^53: the shortest decimal, written out
    when it has at most 21 digits, else as mantissa and exponent. *)
Definition toString_large (a : Z) : string :=
  let p := shortest a in
  let n := decimal_length p in
  if n <=? 21 then numeral (Z.to_nat n) p
  else
    let m := strip 400 p in
    let mantissa :=
      match decimals (Z.to_nat (decimal_length m)) m with
      | [] => EmptyString
      | d :: [] => String (digit d) EmptyString
      | d :: ds =>
          String (digit d)
                 (String "."%char (string_of_list_ascii (map digit ds)))
      end in
    (mantissa ++ "e+"
       ++ numeral (Z.to_nat (decimal_length (n - 1))) (n - 1))%string.

(** [String(num)] *)
Definition toString (num : number) : string :=
  match num with
  | Num z =>
      if Z.abs z <=? 2 ^ 53 then NilZero.string_of_int (Z.to_int z)
      else if 0 <? z then toString_large z
      else String "-"%char (toString_large (- z))
  | NaN => "NaN"
  | Infinity false => "Infinity"
  | Infinity true => "-Infinity"
  end.

(** [parseInt(c)] for a string of one character. *)
Definition parseInt (c : ascii) : number :=
  match c with
  | "0"%char => Num 0 | "1"%char => Num 1 | "2"%char => Num 2
  | "3"%char => Num 3 | "4"%char => Num 4 | "5"%char => Num 5
  | "6"%char => Num 6 | "7"%char => Num 7 | "8"%char => Num 8
  | "9"%char => Num 9
  | _ => NaN
  end.

End Number.

(** [String(num).split('').reduce((acc, digit) => acc + parseInt(digit), 0)] *)
Definition digitSum (num : number) : number :=
  fold_left (fun acc digit => Number.add acc (Number.parseInt digit))
            (list_ascii_of_string (Number.toString num)) (Num 0).

(** The recursion of [collapseDigits] is on a number that gets smaller. *)
Definition magnitude (num : number) : nat :=
  match num with
  | Num z => Z.to_nat z
  | _ => O
  end.

(** Sum of the digits of a decimal numeral. *)
Fixpoint uint_sum (d : Decimal.uint) : Z :=
  match d with
  | Decimal.Nil => 0
  | Decimal.D0 l => uint_sum l
  | Decimal.D1 l => 1 + uint_sum l
  | Decimal.D2 l => 2 + uint_sum l
  | Decimal.D3 l => 3 + uint_sum l
  | Decimal.D4 l => 4 + uint_sum l
  | Decimal.D5 l => 5 + uint_sum l
  | Decimal.D6 l => 6 + uint_sum l
  | Decimal.D7 l => 7 + uint_sum l
  | Decimal.D8 l => 8 + uint_sum l
  | Decimal.D9 l => 9 + uint_sum l
  end.

(** ** Where the arithmetic is exact *)

Lemma round_exact (z : Z) : Z.abs z <= 2 ^ 53 -> Number.round z = z.
Proof.
  intros H. unfold Number.round. cbv zeta.
  now destruct (Z.leb_spec (Z.abs z) (2 ^ 53)); [|lia].
Qed.

Lemma of_Z_exact (z : Z) : Z.abs z <= 2 ^ 53 -> Number.of_Z z = Num z.
Proof.
  intros H. unfold Number.of_Z. cbv zeta. rewrite round_exact by exact H.
  assert (H1 : (2 : Z) ^ 53 < 2 ^ 1024) by (apply Z.pow_lt_mono_r; lia).
  now destruct (Z.ltb_spec (Z.abs z) (2 ^ 1024)); [|lia].
Qed.

Lemma add_exact (x y : Z) :
  Z.abs (x + y) <= 2 ^ 53 -> Number.add (Num x) (Num y) = Num (x + y).
Proof. apply of_Z_exact. Qed.

Lemma mul_exact (x y : Z) :
  Z.abs (x * y) <= 2 ^ 53 -> Number.mul (Num x) (Num y) = Num (x * y).
Proof. apply of_Z_exact. Qed.

Lemma add_NaN (a : number) : Number.add a NaN = NaN.
Proof. now destruct a as [x| |s]. Qed.


Lemma increment_le (x : Z) : x <= Number.increment x.
Proof. unfold Number.increment. lia. Qed.

(** Beyond 2^53 rounding keeps the 53 leading bits or goes one up. *)
Lemma round_large (z : Z) :
  2 ^ 53 < Z.abs z ->
  let e := Z.log2 (Z.abs z) - 52 in
  exists m',
    Number.round z = Z.sgn z * (m' * 2 ^ e)
    /\ Z.abs z / 2 ^ e <= m' <= Z.abs z / 2 ^ e + 1
    /\ (Z.abs z mod 2 ^ e = 0 -> m' = Z.abs z / 2 ^ e)
    /\ 1 <= e.
Proof.
  intros Hz e. unfold Number.round. cbv zeta. fold e.
  destruct (Z.leb_spec (Z.abs z) (2 ^ 53)) as [|_]; [lia|].
  assert (He : 1 <= e).
  { unfold e. pose proof (Z.log2_le_mono (2 ^ 53) (Z.abs z) ltac:(lia)) as H.
    rewrite Z.log2_pow2 in H by lia. lia. }
  assert (Hhalf : 0 < 2 ^ (e - 1)) by (apply Z.pow_pos_nonneg; lia).
  eexists. split; [reflexivity|]. split; [|split; [|exact He]].
  - destruct (_ <? _); [lia|]. destruct (_ <? _); [lia|].
    destruct (Z.even _); lia.
  - intros ->. destruct (Z.ltb_spec 0 (2 ^ (e - 1))); [reflexivity | lia].
Qed.

Lemma round_exact_multiple (z : Z) :
  2 ^ 53 < Z.abs z -> Number.round z = z ->
  Z.abs z mod 2 ^ (Z.log2 (Z.abs z) - 52) = 0.
Proof.
  intros Hz Hr. destruct (round_large z Hz) as (m' & E & Hm & _ & He).
  set (e := Z.log2 (Z.abs z) - 52) in *.
  assert (Hp : 0 < 2 ^ e) by (apply Z.pow_pos_nonneg; lia).
  rewrite Hr in E.
  assert (Ha : Z.abs z = m' * 2 ^ e) by nia.
  rewrite Ha. apply Z.mod_mul. lia.
Qed.

(** On an integer that is a double, [x++] is the rounded [x + 1]. *)
Lemma increment_double (x : Z) :
  Number.round x = x -> Number.increment x = Number.round (x + 1).
Proof.
  intros Hx. unfold Number.increment.
  cut (x <= Number.round (x + 1)); [lia|].
  destruct (Z_le_gt_dec (Z.abs (x + 1)) (2 ^ 53)) as [Hs|Hl].
  { rewrite round_exact by exact Hs. lia. }
  destruct (round_large (x + 1) ltac:(lia)) as (m' & E & Hm & _ & He).
  destruct (Z_lt_le_dec 0 (x + 1)) as [Hpos|Hneg].
  - (* going up from a positive double *)
    rewrite E, Z.sgn_pos by lia. rewrite Z.abs_eq in * by lia.
    set (e := Z.log2 (x + 1) - 52) in *.
    assert (Hp : 0 < 2 ^ e) by (apply Z.pow_pos_nonneg; lia).
    pose proof (Z.div_mod (x + 1) (2 ^ e) ltac:(lia)) as Hdm.
    pose proof (Z.mod_pos_bound (x + 1) (2 ^ e) Hp) as Hmod.
    pose proof (Z.log2_spec (x + 1) ltac:(lia)) as [Hlo Hhi].
    assert (Hsplit : 2 ^ Z.log2 (x + 1) = 2 ^ 52 * 2 ^ e).
    { unfold e. rewrite <- Z.pow_add_r by lia. f_equal. lia. }
    cut ((x + 1) mod 2 ^ e <= 1); [nia|].
    destruct (Z.eq_dec x (2 ^ 53)) as [->|Hne]; [unfold e; now vm_compute|].
    pose proof (round_exact_multiple x ltac:(lia) Hx) as Hmul.
    rewrite Z.abs_eq in Hmul by lia.
    pose proof (Z.log2_spec x ltac:(lia)) as [Hxlo Hxhi].
    destruct (Z.eq_dec (Z.log2 (x + 1)) (Z.log2 x)) as [El|Nl].
    + unfold e. rewrite El.
      rewrite <- Zplus_mod_idemp_l, Hmul.
      rewrite Z.mod_small; [lia|].
      split; [lia|].
      assert (2 ^ 1 <= 2 ^ (Z.log2 x - 52))
        by (apply Z.pow_le_mono_r; unfold e in He; lia).
      lia.
    + pose proof (Z.log2_le_mono x (x + 1) ltac:(lia)) as Hmono.
      assert (Hpow : x + 1 = 2 ^ Z.log2 (x + 1)).
      { assert (2 ^ (Z.log2 x + 1) <= 2 ^ Z.log2 (x + 1))
          by (apply Z.pow_le_mono_r; lia). lia. }
      rewrite Hpow at 1. rewrite Hsplit. rewrite Z.mod_mul by lia. lia.
  - (* going up from a negative double *)
    rewrite E, Z.sgn_neg by lia.
    replace (Z.abs (x + 1)) with (- x - 1) in * by lia.
    set (e := Z.log2 (- x - 1) - 52) in *.
    assert (Hp : 0 < 2 ^ e) by (apply Z.pow_pos_nonneg; lia).
    cut ((m' * 2 ^ e) <= - x); [lia|].
    pose proof (round_exact_multiple x ltac:(lia) Hx) as Hmul.
    rewrite Z.abs_neq in Hmul by lia.
    pose proof (Z.log2_le_mono (- x - 1) (- x) ltac:(lia)) as Hmono.
    assert (Hdiv : (2 ^ e | - x)).
    { apply Z.mod_divide in Hmul;
        [|apply Z.pow_nonzero; [lia|]; unfold e in He; lia].
      apply Z.divide_trans with (2 ^ (Z.log2 (- x) - 52)); [|exact Hmul].
      exists (2 ^ (Z.log2 (- x) - 52 - e)).
      rewrite <- Z.pow_add_r by (unfold e in *; lia). f_equal. lia. }
    destruct Hdiv as [q Hq].
    assert (Hquot : (- x - 1) / 2 ^ e = q - 1).
    { symmetry. apply (Z.div_unique _ _ _ (2 ^ e - 1)); lia. }
    rewrite Hquot in Hm. nia.
Qed.

Section DigitSum.

Let step (acc : number) (digit : ascii) : number :=
  Number.add acc (Number.parseInt digit).

Lemma uint_sum_nonneg (d : Decimal.uint) : 0 <= uint_sum d.
Proof. induction d; cbn [uint_sum]; lia. Qed.

Lemma uint_sum_le_acc (d : Decimal.uint) (acc : positive) :
  Z.pos acc + uint_sum d <= Z.pos (Pos.of_uint_acc d acc).
Proof.
  revert acc; induction d; intros acc; cbn [Pos.of_uint_acc uint_sum];
    [ lia | .. ];
    match goal with
    | |- context [Pos.of_uint_acc d ?a] => specialize (IHd a)
    end; lia.
Qed.

Lemma uint_sum_le (d : Decimal.uint) : uint_sum d <= Z.of_N (Pos.of_uint d).
Proof.
  induction d; cbn [Pos.of_uint uint_sum Z.of_N]; [lia | exact IHd | ..];
    match goal with
    | |- context [Pos.of_uint_acc d ?a] => pose proof (uint_sum_le_acc d a)
    end; lia.
Qed.

Lemma fold_digits_uint (d : Decimal.uint) (acc : Z) :
  0 <= acc -> acc + uint_sum d <= 2 ^ 53 ->
  fold_left step (list_ascii_of_string (NilEmpty.string_of_uint d)) (Num acc)
  = Num (acc + uint_sum d).
Proof.
  revert acc; induction d; intros acc H0 Hle;
    cbn [NilEmpty.string_of_uint list_ascii_of_string fold_left uint_sum] in *;
    [ f_equal; lia | .. ];
    pose proof (uint_sum_nonneg d);
    unfold step at 2; cbn [Number.parseInt];
    rewrite add_exact by lia; rewrite IHd by lia; f_equal; lia.
Qed.

Lemma fold_digits_NaN (l : list ascii) : fold_left step l NaN = NaN.
Proof. induction l; [reflexivity | exact IHl]. Qed.

Lemma parseInt_digit (d : Z) :
  0 <= d <= 9 -> Number.parseInt (Number.digit d) = Num d.
Proof.
  intros H.
  assert (E : d = 0 \/ d = 1 \/ d = 2 \/ d = 3 \/ d = 4 \/ d = 5 \/ d = 6
              \/ d = 7 \/ d = 8 \/ d = 9) by lia.
  repeat (destruct E as [E|E]; [subst d; vm_compute; reflexivity|]).
  subst d. vm_compute. reflexivity.
Qed.

(** The digits of a numeral written out add up to at most 9 each. *)
Lemma fold_decimals (k : nat) (a acc : Z) :
  0 <= acc -> acc + 9 * Z.of_nat k <= 2 ^ 53 ->
  exists s,
    fold_left step (map Number.digit (Number.decimals k a)) (Num acc) = Num s
    /\ acc <= s <= acc + 9 * Z.of_nat k.
Proof.
  revert acc. induction k as [|k IH]; intros acc H0 Hle;
    cbn [Number.decimals map fold_left].
  - exists acc. split; [reflexivity | lia].
  - pose proof (Z.mod_pos_bound (a / 10 ^ Z.of_nat k) 10 ltac:(lia)) as Hd.
    unfold step at 2. rewrite parseInt_digit by lia.
    rewrite add_exact by lia.
    destruct (IH (acc + (a / 10 ^ Z.of_nat k) mod 10)) as (s & -> & Hs);
      [lia | lia |].
    exists s. split; [reflexivity | lia].
Qed.

Lemma list_ascii_of_append (s1 s2 : string) :
  list_ascii_of_string (String.append s1 s2)
  = (list_ascii_of_string s1 ++ list_ascii_of_string s2)%list.
Proof.
  induction s1 as [|c s1 IH]; [reflexivity|].
  change (c :: list_ascii_of_string (String.append s1 s2)
          = c :: (list_ascii_of_string s1 ++ list_ascii_of_string s2)%list).
  now rewrite IH.
Qed.

(** A string with an [e] in it adds up to NaN. *)
Lemma fold_exponent (s1 s2 : string) (acc : number) :
  fold_left step (list_ascii_of_string (String.append s1 (String "e"%char s2)))
            acc = NaN.
Proof.
  rewrite list_ascii_of_append, fold_left_app.
  cbn [list_ascii_of_string fold_left]. unfold step at 2.
  cbn [Number.parseInt]. rewrite add_NaN. apply fold_digits_NaN.
Qed.

Lemma digitSum_pos (p : positive) :
  Z.pos p <= 2 ^ 53 ->
  digitSum (Num (Z.pos p)) = Num (uint_sum (Pos.to_uint p)).
Proof.
  intros Hle. unfold digitSum, Number.toString.
  destruct (Z.leb_spec (Z.abs (Z.pos p)) (2 ^ 53)) as [_|]; [|lia].
  unfold Z.to_int, NilZero.string_of_int, NilZero.string_of_uint.
  pose proof (Unsigned.to_uint_nonnil p) as Hnil.
  assert (Hsum : 0 + uint_sum (Pos.to_uint p) <= 2 ^ 53).
  { pose proof (uint_sum_le (Pos.to_uint p)) as H'.
    rewrite Unsigned.of_to in H'. cbn [Z.of_N] in H'. lia. }
  destruct (Pos.to_uint p) eqn:E; try congruence;
    rewrite <- E in *; apply (fold_digits_uint _ 0); lia.
Qed.

Lemma digitSum_zero : digitSum (Num 0) = Num 0.
Proof. reflexivity. Qed.

(** A string that starts with a sign adds up to NaN. *)
Lemma fold_minus (s : string) :
  fold_left step (list_ascii_of_string (String "-"%char s)) (Num 0) = NaN.
Proof.
  change (fold_left step (list_ascii_of_string s) (step (Num 0) "-"%char) = NaN).
  apply fold_digits_NaN.
Qed.

Lemma digitSum_neg (p : positive) : digitSum (Num (Z.neg p)) = NaN.
Proof.
  unfold digitSum, Number.toString.
  destruct (Z.abs (Z.neg p) <=? 2 ^ 53).
  - apply (fold_minus (NilZero.string_of_uint (Pos.to_uint p))).
  - destruct (Z.ltb_spec 0 (Z.neg p)) as [|_]; [lia|].
    apply fold_minus.
Qed.

Lemma digitSum_NaN : digitSum NaN = NaN.
Proof. reflexivity. Qed.

Lemma digitSum_Infinity (negative : bool) : digitSum (Infinity negative) = NaN.
Proof. now destruct negative. Qed.

(** Above 2^53 the digits of the shortest decimal add up to little, or the
    decimal has an exponent and the sum is NaN. *)
Lemma digitSum_large (z : Z) :
  2 ^ 53 < z ->
  digitSum (Num z) = NaN
  \/ exists s, digitSum (Num z) = Num s /\ 0 <= s <= 189.
Proof.
  intros Hz. unfold digitSum, Number.toString.
  destruct (Z.leb_spec (Z.abs z) (2 ^ 53)) as [|_]; [lia|].
  destruct (Z.ltb_spec 0 z) as [_|]; [|lia].
  unfold Number.toString_large. cbv zeta.
  destruct (Z.leb_spec (Number.decimal_length (Number.shortest z)) 21)
    as [Hn|Hn].
  - right. unfold Number.numeral.
    rewrite list_ascii_of_string_of_list_ascii.
    destruct (fold_decimals
                (Z.to_nat (Number.decimal_length (Number.shortest z)))
                (Number.shortest z) 0) as (s & Hs & Hb); [lia | lia |].
    exists s. split; [exact Hs | lia].
  - left. apply fold_exponent.
Qed.

End DigitSum.
(** A decimal numeral and the sum of its digits differ by a multiple of 9,
    and by a positive one as soon as there are two significant digits. *)
Lemma of_uint_acc_sum (d : Decimal.uint) (acc : positive) :
  exists q, Z.pos (Pos.of_uint_acc d acc) = Z.pos acc + uint_sum d + 9 * q
            /\ 0 <= q /\ 0 <= uint_sum d /\ (d <> Decimal.Nil -> 0 < q).
Proof.
  revert acc; induction d; intros acc; cbn [Pos.of_uint_acc uint_sum];
    [ exists 0; repeat split; try lia; congruence | .. ];
    match goal with
    | |- context [Pos.of_uint_acc d ?a] =>
        destruct (IHd a) as (q & Hv & Hq & Hs & _)
    end;
    exists (Z.pos acc + q); rewrite Hv;
    repeat split; intros; lia.
Qed.

Lemma of_uint_sum (d : Decimal.uint) :
  exists q, Z.of_N (Pos.of_uint d) = uint_sum d + 9 * q
            /\ 0 <= q /\ 0 <= uint_sum d
            /\ (q = 0 -> uint_sum d <= 9)
            /\ (0 < Z.of_N (Pos.of_uint d) -> 0 < uint_sum d).
Proof.
  induction d; cbn [Pos.of_uint uint_sum];
    [ exists 0; repeat split; cbn; lia | exact IHd | .. ];
    match goal with
    | |- context [Pos.of_uint_acc d ?a] =>
        destruct (of_uint_acc_sum d a) as (q & Hv & Hq & Hs & Hnil)
    end;
    exists q; cbn [Z.of_N]; rewrite Hv;
    (repeat split; try lia);
    intros ->; destruct d; cbn [uint_sum]; try lia;
    exfalso; (assert (0 < 0) by (apply Hnil; congruence)); lia.
Qed.

(** What [digitSum] yields on the integers. *)
Lemma digitSum_positive (n : Z) :
  0 < n <= 2 ^ 53 ->
  exists s q, digitSum (Num n) = Num s /\ n = s + 9 * q
              /\ 0 <= q /\ 1 <= s /\ (q = 0 -> s <= 9).
Proof.
  intros Hn. destruct n as [|p|p]; try lia.
  rewrite digitSum_pos by lia.
  destruct (of_uint_sum (Pos.to_uint p)) as (q & Hv & Hq & Hs & H9 & Hpos).
  rewrite Unsigned.of_to in Hv, Hpos. cbn [Z.of_N] in Hv, Hpos.
  exists (uint_sum (Pos.to_uint p)), q. repeat split; try lia.
Qed.

Lemma digitSum_shrinks (num sum : number) :
  digitSum num = sum -> Number.gt sum (Num 9) = true ->
  (magnitude sum < magnitude num)%nat.
Proof.
  intros <-. destruct num as [[|p|p]| |negative].
  - rewrite digitSum_zero. cbn. discriminate.
  - destruct (Z.le_gt_cases (Z.pos p) (2 ^ 53)) as [Hle|Hgt].
    + destruct (digitSum_positive (Z.pos p))
        as (s & q & -> & Hv & Hq & Hs & H9); [lia|].
      cbn [Number.gt magnitude]. intros Hgt%Z.gtb_lt. lia.
    + destruct (digitSum_large (Z.pos p)) as [->|(s & -> & Hs)];
        [lia | discriminate |].
      cbn [Number.gt magnitude]. intros _. lia.
  - rewrite digitSum_neg. discriminate.
  - rewrite digitSum_NaN. discriminate.
  - rewrite digitSum_Infinity. discriminate.
Qed.

(** ** core/pattern.ts *)

(** Keeps the equation [a = b] in scope of the branches that match on [b]. *)
Definition inspect {A : Type} (a : A) : {b : A | a = b} := exist _ a eq_refl.

(** The order the recursion of [collapseDigits] descends in. *)
Definition shrinks (a b : number) : Prop := (magnitude a < magnitude b)%nat.

(** It is well-founded; the first levels of the proof are laid out so that
    the recursion computes without counting up to the number. *)
#[local] Instance shrinks_wf : WellFounded shrinks :=
  Acc_intro_generator 8 (well_founded_ltof number magnitude).

(** [collapseDigits]: sum the decimal digits, again while the sum exceeds 9. *)
Equations collapseDigits (num : number) : number by wf num shrinks :=
  collapseDigits num with inspect (digitSum num) := {
    | exist _ sum Hsum with inspect (Number.gt sum (Num 9)) := {
        | exist _ true Hgt => collapseDigits sum
        | exist _ false _ => sum } }.
Next Obligation. intros. eapply digitSum_shrinks; [reflexivity | eassumption]. Qed.

(** ** Exceptions

    The only exception the core raises is the engine's [RangeError]
    (Maximum call stack size exceeded) of a recursion that is deeper than
    the call stack has room for, as one that never reaches a base case
    is. *)
Inductive exn : Type :=
| RangeError
| TypeError.   (* a method called through a reference that holds no object;
                  no call of the program does so *)

(** How a call ends: it returns a value or it throws. *)
Inductive completion (A : Type) : Type :=
| Returned (a : A)
| Threw (e : exn).
Arguments Returned {A} a.
Arguments Threw {A} e.

Module PatternGenerator.

Record t : Type := mk {
  seed : Z;
  phaseResetInterval : Z;
  cache : gmap Z number
}.

(** [constructor(seed, phaseResetInterval)]: stores both, performs no check. *)
Definition new (seed phaseResetInterval : Z) : t :=
  {| seed := seed; phaseResetInterval := phaseResetInterval; cache := ∅ |}.

(** [this.cache.set(step, value)] *)
Definition cache_set (step : Z) (value : number) (this : t) : t :=
  {| seed := seed this;
     phaseResetInterval := phaseResetInterval this;
     cache := <[step := value]> (cache this) |}.

(** The body of [computeValue], with room for [depth] more nested calls;
    [step - 1] is the double nearest to it. *)
Fixpoint computeValue_rec (depth : nat) (this : t) (step : Z)
  : option (number * t) :=
  match cache this !! step with
  | Some value => Some (value, this)
  | None =>
      if Number.strict_eq
           (Number.rem (Num step) (Num (phaseResetInterval this))) (Num 0)
      then
        let value := Num (seed this) in
        Some (value, cache_set step value this)
      else
        match depth with
        | O => None
        | S depth' =>
            let previousStep := Number.round (step - 1) in
            match computeValue_rec depth' this previousStep with
            | None => None
            | Some (previousValue, this') =>
                let value :=
                  collapseDigits (Number.mul previousValue (Num (seed this'))) in
                Some (value, cache_set step value this')
            end
        end
  end.

(** [computeValue(step)] on an engine whose stack has room for [stack]
    nested calls: the value and the generator with its cache grown, or the
    engine's [RangeError], thrown before any cache entry is written. *)
Definition computeValue (stack : nat) (this : t) (step : Z)
  : completion number * t :=
  match computeValue_rec stack this step with
  | Some (value, this') => (Returned value, this')
  | None => (Threw RangeError, this)
  end.

(** [clearCache()] *)
Definition clearCache (this : t) : t :=
  {| seed := seed this;
     phaseResetInterval := phaseResetInterval this;
     cache := ∅ |}.

End PatternGenerator.

(** ** types/mesh.ts *)

(** [data: any]: the payload, opaque to the core; here a JSON text. *)
Definition any : Type := string.

Record PatternConfig : Type := {
  seed : Z;
  phaseResetInterval : Z
}.

(** [interface NodeConfig extends PatternConfig] *)
Record NodeConfig : Type := {
  patternConfig :> PatternConfig;
  nodeId : string
}.

Record Message : Type := {
  senderId : string;
  globalStep : Z;
  patternValue : number;
  data : any
}.

(** ** The event emitter and the object store

    Every [MeshNode] is an object on the heap; the network's map and the
    closures registered by [createNode] hold references to it.  A listener
    is either that closure or a function of the caller; the latter is opaque
    and only recorded when invoked. *)

(** A reference to an object: its index in the store. *)
Abbreviation ref := nat (only parsing).

(** What [emit] passes to the listeners. *)
Inductive payload : Type :=
| OfMessage (message : Message)
| OfError (type : string) (message : Message) (expected : number)
| OfStep (step : Z).

Inductive listener : Type :=
| Route (node : ref)      (* (message) => this.broadcast(message, node) *)
| Callback (id : nat).    (* a function of the caller *)

(** The emitter of a node: per event name, the listeners in the order of
    registration.  The routing closure is registered by [onBroadcast] only. *)
Record EventEmitter : Type := {
  on_broadcast : list listener;
  on_message : list nat;
  on_error : list nat;
  on_sync : list nat
}.

(** The fields of a [MeshNode] object.  The constructor and the methods,
    which act on the object store, follow as [MeshNode_new],
    [MeshNode_broadcast], [MeshNode_receive], [MeshNode_sync]. *)
Module MeshNode.

Record t : Type := mk {
  nodeId : string;
  pattern : PatternGenerator.t;
  eventEmitter : EventEmitter;
  globalStep : Z
}.

Definition set_pattern (p : PatternGenerator.t) (this : t) : t :=
  {| nodeId := nodeId this; pattern := p;
     eventEmitter := eventEmitter this; globalStep := globalStep this |}.

Definition set_globalStep (step : Z) (this : t) : t :=
  {| nodeId := nodeId this; pattern := pattern this;
     eventEmitter := eventEmitter this; globalStep := step |}.

Definition set_eventEmitter (e : EventEmitter) (this : t) : t :=
  {| nodeId := nodeId this; pattern := pattern this;
     eventEmitter := e; globalStep := globalStep this |}.

End MeshNode.

(** [new MeshNode(config)]: the constructor performs no check. *)
Definition MeshNode_new (config : NodeConfig) : MeshNode.t :=
  {| MeshNode.nodeId := nodeId config;
     MeshNode.pattern :=
       PatternGenerator.new (seed config) (phaseResetInterval config);
     MeshNode.eventEmitter :=
       {| on_broadcast := []; on_message := []; on_error := []; on_sync := [] |};
     MeshNode.globalStep := 0 |}.

(** What can be observed of a run, in order. *)
Inductive action : Type :=
| Emitted (node : ref) (name : string) (arg : payload)
| Invoked (callback : nat) (arg : payload)
| Received (node : ref) (message : Message).

(** The engine's call stack, the objects, the map of the one network, and
    what was observed so far. *)
Record World : Type := {
  stack : nat;                      (* nested [computeValue] calls there is room for *)
  heap : list MeshNode.t;           (* the MeshNode objects, by reference *)
  nodes : list (string * ref);      (* MeshNetwork.nodes, in insertion order *)
  trace : list action
}.

(** Computations on the world that return or throw. *)
Definition M (A : Type) : Type := World -> completion A * World.

#[global] Instance M_ret : MRet M := fun A a w => (Returned a, w).

#[global] Instance M_bind : MBind M := fun A B k c w =>
  match c w with
  | (Returned a, w') => k a w'
  | (Threw e, w') => (Threw e, w')
  end.

(** [throw e] *)
Definition throw {A : Type} (e : exn) : M A := fun w => (Threw e, w).

(** Records what is observed. *)
Definition log (a : action) : M unit := fun w =>
  (Returned tt,
   {| stack := stack w; heap := heap w; nodes := nodes w;
      trace := trace w ++ [a] |}).

(** The object a reference points to. *)
Definition deref (r : ref) : M MeshNode.t := fun w =>
  match heap w !! r with
  | Some o => (Returned o, w)
  | None => (Threw TypeError, w)
  end.

(** Writes the fields of the object a reference points to. *)
Definition assign (r : ref) (o : MeshNode.t) : M unit := fun w =>
  (Returned tt,
   {| stack := stack w; heap := <[r := o]> (heap w); nodes := nodes w;
      trace := trace w |}).

(** [new]: a fresh reference to the object. *)
Definition alloc (o : MeshNode.t) : M ref := fun w =>
  (Returned (length (heap w)),
   {| stack := stack w; heap := heap w ++ [o]; nodes := nodes w;
      trace := trace w |}).

(** The room the call stack has. *)
Definition room : M nat := fun w => (Returned (stack w), w).

(** [list.forEach(f)]; an exception of [f] ends the iteration. *)
Fixpoint forEach {A : Type} (f : A -> M unit) (l : list A) : M unit :=
  match l with
  | [] => mret tt
  | x :: l' => f x ;; forEach f l'
  end.

(** ** core/mesh-node.ts *)

(** [this.eventEmitter.emit(name, arg)] for the events that only callers
    listen to. *)
Definition emit (this : ref) (name : string) (arg : payload)
  (listeners : EventEmitter -> list nat) : M unit :=
  log (Emitted this name arg) ;;
  o ← deref this;
  forEach (fun id => log (Invoked id arg)) (listeners (MeshNode.eventEmitter o)).

(** [this.pattern.computeValue(step)] on the generator the node owns. *)
Definition MeshNode_computeValue (this : ref) (step : Z) : M number :=
  o ← deref this;
  stack ← room;
  let '(result, pattern') :=
    PatternGenerator.computeValue stack (MeshNode.pattern o) step in
  assign this (MeshNode.set_pattern pattern' o) ;;
  match result with
  | Returned value => mret value
  | Threw e => throw e
  end.

Definition MeshNode_sync (this : ref) (targetStep : Z) : M unit :=
  o ← deref this;
  if targetStep >? MeshNode.globalStep o
  then
    assign this (MeshNode.set_globalStep targetStep o) ;;
    emit this "sync" (OfStep targetStep) on_sync
  else mret tt.

Definition MeshNode_receive (this : ref) (message : Message) : M unit :=
  log (Received this message) ;;
  expectedPattern ← MeshNode_computeValue this (globalStep message);
  if Number.strict_ne expectedPattern (patternValue message)
  then
    emit this "error" (OfError "pattern-mismatch" message expectedPattern)
         on_error
  else
    MeshNode_sync this (globalStep message) ;;
    emit this "message" (OfMessage message) on_message.

(** [this.globalStep++] *)
Definition MeshNode_incrementStep (this : ref) : M unit :=
  o ← deref this;
  assign this
    (MeshNode.set_globalStep (Number.increment (MeshNode.globalStep o)) o).

(** ** core/mesh-network.ts *)

(** [this.nodes.forEach(...)]: every registered node whose key is not the
    sender's id receives the message, in insertion order.  No [receive]
    changes the map, so the iteration runs over the map as it is at the
    start. *)
Definition MeshNetwork_broadcast (message : Message) (_sender : ref) : M unit :=
  fun w =>
    forEach (fun '(nodeId, node) =>
               if String.eqb nodeId (senderId message)
               then mret tt
               else MeshNode_receive node message)
            (nodes w) w.

(** Calling a listener of the [broadcast] event. *)
Definition call (l : listener) (message : Message) : M unit :=
  match l with
  | Route node => MeshNetwork_broadcast message node
  | Callback id => log (Invoked id (OfMessage message))
  end.

Definition MeshNode_broadcast (this : ref) (data : any) : M unit :=
  o ← deref this;
  patternValue ← MeshNode_computeValue this (MeshNode.globalStep o);
  let message :=
    {| senderId := MeshNode.nodeId o;
       globalStep := MeshNode.globalStep o;
       patternValue := patternValue;
       data := data |} in
  log (Emitted this "broadcast" (OfMessage message)) ;;
  forEach (fun l => call l message) (on_broadcast (MeshNode.eventEmitter o)) ;;
  MeshNode_incrementStep this.

(** [Map.prototype.set]: an existing key keeps its place in the order. *)
Fixpoint Map_set (key : string) (value : ref) (m : list (string * ref))
  : list (string * ref) :=
  match m with
  | [] => [(key, value)]
  | (k, v) :: m' =>
      if String.eqb k key then (key, value) :: m'
      else (k, v) :: Map_set key value m'
  end.

(** [Map.prototype.get] *)
Fixpoint Map_get (key : string) (m : list (string * ref)) : option ref :=
  match m with
  | [] => None
  | (k, v) :: m' => if String.eqb k key then Some v else Map_get key m'
  end.

(** [Map.prototype.delete] *)
Fixpoint Map_delete (key : string) (m : list (string * ref))
  : list (string * ref) :=
  match m with
  | [] => []
  | (k, v) :: m' =>
      if String.eqb k key then m' else (k, v) :: Map_delete key m'
  end.

(** [this.nodes = f(this.nodes)] *)
Definition update_nodes (f : list (string * ref) -> list (string * ref))
  : M unit := fun w =>
  (Returned tt,
   {| stack := stack w; heap := heap w; nodes := f (nodes w);
      trace := trace w |}).

(** Changes the listeners of a node. *)
Definition update_emitter (this : ref) (f : EventEmitter -> EventEmitter)
  : M unit :=
  o ← deref this;
  assign this (MeshNode.set_eventEmitter (f (MeshNode.eventEmitter o)) o).

(** [this.eventEmitter.on('broadcast', callback)] *)
Definition MeshNode_onBroadcast (this : ref) (callback : listener) : M unit :=
  update_emitter this (fun e =>
    {| on_broadcast := on_broadcast e ++ [callback]; on_message := on_message e;
       on_error := on_error e; on_sync := on_sync e |}).

Definition MeshNode_onMessage (this : ref) (callback : nat) : M unit :=
  update_emitter this (fun e =>
    {| on_broadcast := on_broadcast e; on_message := on_message e ++ [callback];
       on_error := on_error e; on_sync := on_sync e |}).

Definition MeshNode_onError (this : ref) (callback : nat) : M unit :=
  update_emitter this (fun e =>
    {| on_broadcast := on_broadcast e; on_message := on_message e;
       on_error := on_error e ++ [callback]; on_sync := on_sync e |}).

Definition MeshNode_onSync (this : ref) (callback : nat) : M unit :=
  update_emitter this (fun e =>
    {| on_broadcast := on_broadcast e; on_message := on_message e;
       on_error := on_error e; on_sync := on_sync e ++ [callback] |}).

(** [new MeshNetwork()], on an engine whose stack has room for [stack]
    nested calls. *)
Definition MeshNetwork_new (stack : nat) : World :=
  {| stack := stack; heap := []; nodes := []; trace := [] |}.

Definition MeshNetwork_createNode (config : NodeConfig) : M ref :=
  node ← alloc (MeshNode_new config);
  MeshNode_onBroadcast node (Route node) ;;
  update_nodes (Map_set (nodeId config) node) ;;
  mret node.

Definition MeshNetwork_getNode (nodeId : string) (w : World) : option ref :=
  Map_get nodeId (nodes w).

Definition MeshNetwork_removeNode (nodeId : string) : M unit :=
  update_nodes (Map_delete nodeId).

(** ** utils/validation

    On a typed configuration the [typeof] tests hold; what is left is the
    test of the interval.  No constructor calls these functions. *)
Definition validateNodeConfig (config : NodeConfig) : bool :=
  phaseResetInterval config >? 0.

Definition validateMessage (message : Message) : bool :=
  globalStep message >=? 0.

(** ** core/mesh-observer.ts *)
Module MeshObserver.

Record anomaly : Type := {
  type : string;
  message : Message;
  expected : number;
  received : number;
  timestamp : Z
}.

Inductive emitted : Type :=
| Anomaly (callback : nat) (a : anomaly)
| ValidMessage (callback : nat) (m : Message).

Record t : Type := mk {
  pattern : PatternGenerator.t;
  on_anomaly : list nat;
  on_valid_message : list nat;
  observedMessages : list Message;
  anomalies : list anomaly;
  calls : list emitted           (* the listener calls made so far *)
}.

(** [constructor(config)] *)
Definition new (config : PatternConfig) : t :=
  {| pattern := PatternGenerator.new (seed config) (phaseResetInterval config);
     on_anomaly := []; on_valid_message := [];
     observedMessages := []; anomalies := []; calls := [] |}.

(** [observe(message)]; [now] is what [Date.now()] returns, [stack] the
    room of the call stack. *)
Definition observe (stack : nat) (now : Z) (msg : Message) (this : t)
  : completion unit * t :=
  match PatternGenerator.computeValue stack (pattern this) (globalStep msg) with
  | (Threw e, p) =>
      (Threw e,
       {| pattern := p; on_anomaly := on_anomaly this;
          on_valid_message := on_valid_message this;
          observedMessages := observedMessages this;
          anomalies := anomalies this; calls := calls this |})
  | (Returned expectedPattern, p) =>
      if Number.strict_ne expectedPattern (patternValue msg)
      then
        let a := {| type := "pattern-mismatch"; message := msg;
                    expected := expectedPattern;
                    received := patternValue msg; timestamp := now |} in
        (Returned tt,
         {| pattern := p; on_anomaly := on_anomaly this;
            on_valid_message := on_valid_message this;
            observedMessages := observedMessages this;
            anomalies := anomalies this ++ [a];
            calls := calls this ++ map (fun id => Anomaly id a) (on_anomaly this) |})
      else
        (Returned tt,
         {| pattern := p; on_anomaly := on_anomaly this;
            on_valid_message := on_valid_message this;
            observedMessages := observedMessages this ++ [msg];
            anomalies := anomalies this;
            calls := calls this
                     ++ map (fun id => ValidMessage id msg) (on_valid_message this) |})
  end.

Record Statistics : Type := {
  totalObserved : nat;
  validMessages : nat;
  anomalyCount : nat;          (* the field [anomalies] of the result *)
  successRate : float
}.

(** An array length as a double. *)
Definition of_length (n : nat) : float :=
  PrimFloat.of_uint63 (Uint63.of_Z (Z.of_nat n)).

Definition getStatistics (this : t) : Statistics :=
  let totalObserved := (length (observedMessages this) + length (anomalies this))%nat in
  let validMessages := length (observedMessages this) in
  let anomalies := length (anomalies this) in
  let successRate :=
    if (0 <? totalObserved)%nat
    then (of_length validMessages / of_length totalObserved * 100)%float
    else 0%float in
  {| totalObserved := totalObserved; validMessages := validMessages;
     anomalyCount := anomalies; successRate := successRate |}.

Definition clearHistory (this : t) : t :=
  {| pattern := pattern this; on_anomaly := on_anomaly this;
     on_valid_message := on_valid_message this;
     observedMessages := []; anomalies := []; calls := calls this |}.

Definition onAnomaly (callback : nat) (this : t) : t :=
  {| pattern := pattern this; on_anomaly := on_anomaly this ++ [callback];
     on_valid_message := on_valid_message this;
     observedMessages := observedMessages this;
     anomalies := anomalies this; calls := calls this |}.

Definition onValidMessage (callback : nat) (this : t) : t :=
  {| pattern := pattern this; on_anomaly := on_anomaly this;
     on_valid_message := on_valid_message this ++ [callback];
     observedMessages := observedMessages this;
     anomalies := anomalies this; calls := calls this |}.

End MeshObserver.

(** * The vocabulary of the properties *)

(** A generator as the program can hold one: constructed, then used. *)
Inductive constructed (seed phaseResetInterval : Z) : PatternGenerator.t -> Prop :=
| constructed_new :
    constructed seed phaseResetInterval
      (PatternGenerator.new seed phaseResetInterval)
| constructed_computeValue g stack step :
    constructed seed phaseResetInterval g ->
    constructed seed phaseResetInterval
      (snd (PatternGenerator.computeValue stack g step))
| constructed_clearCache g :
    constructed seed phaseResetInterval g ->
    constructed seed phaseResetInterval (PatternGenerator.clearCache g).

(** What the recursion of [computeValue] yields for a step when nothing is
    cached and the stack is deep enough: the seed at a phase boundary, else
    the collapse of what the step before yields, times the seed. *)
Inductive yields (seed phaseResetInterval : Z) : Z -> number -> Prop :=
| yields_boundary step :
    Number.strict_eq (Number.rem (Num step) (Num phaseResetInterval)) (Num 0)
    = true ->
    yields seed phaseResetInterval step (Num seed)
| yields_next step previousValue :
    Number.strict_eq (Number.rem (Num step) (Num phaseResetInterval)) (Num 0)
    = false ->
    yields seed phaseResetInterval (Number.round (step - 1)) previousValue ->
    yields seed phaseResetInterval step
           (collapseDigits (Number.mul previousValue (Num seed))).

(** The steps from [step] down to the phase boundary below it are integers
    that the doubles hold exactly, so that [step - 1] is exact all the
    way. *)
Definition exact_descent (phaseResetInterval step : Z) : bool :=
  (- 2 ^ 53 <=? step - step mod Z.abs phaseResetInterval) && (step <=? 2 ^ 53).

(** How many nested calls [computeValue(step)] makes when nothing is
    cached. *)
Definition depth (phaseResetInterval step : Z) : nat :=
  Z.to_nat (step mod Z.abs phaseResetInterval).

(** The value of [step] where the descent is exact: [seed] at the phase
    boundary below [step], then one collapse of [previous * seed] per step
    up. *)
Definition valueAt (seed phaseResetInterval step : Z) : number :=
  Nat.iter (Z.to_nat (step mod Z.abs phaseResetInterval))
           (fun previousValue =>
              collapseDigits (Number.mul previousValue (Num seed)))
           (Num seed).

(** Every cached value is what the recursion yields for its step. *)
Definition consistent (g : PatternGenerator.t) : Prop :=
  forall k v,
    PatternGenerator.cache g !! k = Some v ->
    yields (PatternGenerator.seed g) (PatternGenerator.phaseResetInterval g) k v.

(** ** Later states *)

(** [o'] is a later state of the object [o]: same identity, same listeners,
    same generator parameters, and a step that is not smaller. *)
Definition node_le (o o' : MeshNode.t) : Prop :=
  MeshNode.nodeId o' = MeshNode.nodeId o
  /\ MeshNode.eventEmitter o' = MeshNode.eventEmitter o
  /\ PatternGenerator.seed (MeshNode.pattern o')
     = PatternGenerator.seed (MeshNode.pattern o)
  /\ PatternGenerator.phaseResetInterval (MeshNode.pattern o')
     = PatternGenerator.phaseResetInterval (MeshNode.pattern o)
  /\ MeshNode.globalStep o <= MeshNode.globalStep o'.

(** [w'] is a later state of the world [w]: the same engine, the same
    registry and, under every reference, a later state of the same object. *)
Definition world_le (w w' : World) : Prop :=
  stack w' = stack w
  /\ nodes w' = nodes w
  /\ length (heap w') = length (heap w)
  /\ forall r o, heap w !! r = Some o ->
                 exists o', heap w' !! r = Some o' /\ node_le o o'.

(** A computation that, returning or throwing, leaves a later world. *)
Definition preserving {A : Type} (c : M A) : Prop :=
  forall w, world_le w (snd (c w)).

(** A call of a method of a node. *)
Inductive method_call : Type :=
| Broadcast (this : ref) (data : any)
| Receive (this : ref) (message : Message)
| Sync (this : ref) (targetStep : Z).

(** Making the call. *)
Definition perform (c : method_call) : M unit :=
  match c with
  | Broadcast this data => MeshNode_broadcast this data
  | Receive this message => MeshNode_receive this message
  | Sync this targetStep => MeshNode_sync this targetStep
  end.

(** One call after the other; what a call throws is caught by the caller,
    who goes on with the world as the call left it. *)
Fixpoint run (calls : list method_call) (w : World) : World :=
  match calls with
  | [] => w
  | c :: calls' => run calls' (snd (perform c w))
  end.

(** ** Networks to run the methods on *)

Definition node_a : NodeConfig :=
  {| patternConfig := {| seed := 7; phaseResetInterval := 100 |};
     nodeId := "node-a" |}.

Definition node_b : NodeConfig :=
  {| patternConfig := {| seed := 7; phaseResetInterval := 100 |};
     nodeId := "node-b" |}.

Definition node_c : NodeConfig :=
  {| patternConfig := {| seed := 7; phaseResetInterval := 100 |};
     nodeId := "node-c" |}.

(** Three nodes (references 0, 1, 2) on an engine with room for 16 nested
    calls; node-b listens to its [message], [error] and [sync] events with
    the callbacks 10, 11 and 12. *)
Definition three_nodes : World :=
  snd ((MeshNetwork_createNode node_a ;;
        b ← MeshNetwork_createNode node_b;
        MeshNetwork_createNode node_c ;;
        MeshNode_onMessage b 10 ;;
        MeshNode_onError b 11 ;;
        MeshNode_onSync b 12) (MeshNetwork_new 16)).

(** [three_nodes] after node-b has synchronised to step 5. *)
Definition three_nodes_at_5 : World := snd (MeshNode_sync 1 5 three_nodes).

(** ** What a trace tells *)





(** The interval is not 0, the descent from [step] is exact and no deeper
    than the stack has room for: [computeValue(step)] returns. *)
Definition computable (stack : nat) (phaseResetInterval step : Z) : bool :=
  negb (phaseResetInterval =? 0)
  && exact_descent phaseResetInterval step
  && (depth phaseResetInterval step <=? stack)%nat.



(** How often [createNode]'s closure is among the listeners. *)
Definition is_route (l : listener) : bool :=
  match l with
  | Route _ => true
  | Callback _ => false
  end.

Definition count_routes (ls : list listener) : nat :=
  length (List.filter is_route ls).

(** The message a node builds when it broadcasts [data]. *)
Definition outgoing (o : MeshNode.t) (patternValue : number) (data : any)
  : Message :=
  {| senderId := MeshNode.nodeId o;
     globalStep := MeshNode.globalStep o;
     patternValue := patternValue;
     data := data |}.

(** ** The registry as the network keeps it *)

(** No key occurs twice. *)
Fixpoint distinct (keys : list string) : bool :=
  match keys with
  | [] => true
  | k :: keys' => negb (existsb (String.eqb k) keys') && distinct keys'
  end.

(** The entry refers to an object whose [nodeId] is the key and which
    carries the one routing closure [createNode] registered. *)
Definition entry_ok (w : World) (entry : string * ref) : bool :=
  match heap w !! snd entry with
  | Some o =>
      String.eqb (MeshNode.nodeId o) (fst entry)
      && Nat.eqb (count_routes (on_broadcast (MeshNode.eventEmitter o))) 1
  | None => false
  end.

(** The registry is a map (its keys are distinct) of nodes that
    [createNode] made. *)
Definition network_ok (w : World) : bool :=
  forallb (entry_ok w) (nodes w) && distinct (map fst (nodes w)).

(** The entry refers to an object whose generator can compute the value of
    [step]. *)
Definition entry_live (w : World) (step : Z) (entry : string * ref) : bool :=
  match heap w !! snd entry with
  | Some o =>
      computable (stack w)
        (PatternGenerator.phaseResetInterval (MeshNode.pattern o)) step
  | None => false
  end.

(** Every registered node can compute the value of [step]: its
    [phaseResetInterval] is not 0, and from [step] the phase boundary below
    is reached by exact subtractions within the room of the stack. *)
Definition all_live (w : World) (step : Z) : bool :=
  forallb (entry_live w step) (nodes w).

(** The node [createNode] puts on the heap. *)
Definition created (config : NodeConfig) (this : ref) : MeshNode.t :=
  MeshNode.set_eventEmitter
    {| on_broadcast := [Route this]; on_message := []; on_error := [];
       on_sync := [] |}
    (MeshNode_new config).

(** ** More networks *)

(** A configuration the validator rejects: interval 0, empty id. *)
Definition invalid_config : NodeConfig :=
  {| patternConfig := {| seed := 7; phaseResetInterval := 0 |}; nodeId := "" |}.

(** A node whose interval is 0. *)
Definition node_z : NodeConfig :=
  {| patternConfig := {| seed := 7; phaseResetInterval := 0 |};
     nodeId := "node-z" |}.

(** node-a, node-z (interval 0) and node-c, in this order. *)
Definition with_zero_interval : World :=
  snd ((MeshNetwork_createNode node_a ;;
        MeshNetwork_createNode node_z ;;
        MeshNetwork_createNode node_c) (MeshNetwork_new 16)).



(** [{ nodeId: id, seed, phaseResetInterval: interval }] *)
Definition config (id : string) (seed interval : Z) : NodeConfig :=
  {| patternConfig := {| seed := seed; phaseResetInterval := interval |};
     nodeId := id |}.



(** * The model at work *)

Example collapse_49 : collapseDigits (Num 49) = Num 4.
Proof. reflexivity. Qed.

Example collapse_m28 : collapseDigits (Num (-28)) = NaN.
Proof. vm_compute. reflexivity. Qed.

(** [String(1e21)] is ["1e+21"], and [parseInt("e")] is NaN. *)
Example collapse_1e21 : collapseDigits (Num (10 ^ 21)) = NaN.
Proof. vm_compute. reflexivity. Qed.

(** [94906267 * 94906267] is 9007199515875289; the nearest double is
    9007199515875288. *)
Example product_rounds :
  Number.mul (Num 94906267) (Num 94906267) = Num 9007199515875288.
Proof. vm_compute. reflexivity. Qed.

Example string_2_60 : Number.toString (Num (2 ^ 60)) = "1152921504606847000".
Proof. vm_compute. reflexivity. Qed.

Example increment_2_53 : Number.increment (2 ^ 53) = 2 ^ 53.
Proof. vm_compute. reflexivity. Qed.

Example value_7_100_0 :
  fst (PatternGenerator.computeValue 1000 (PatternGenerator.new 7 100) 0)
  = Returned (Num 7).
Proof. vm_compute. reflexivity. Qed.
Example value_7_100_1 :
  fst (PatternGenerator.computeValue 1000 (PatternGenerator.new 7 100) 1)
  = Returned (Num 4).
Proof. vm_compute. reflexivity. Qed.
Example value_7_100_2 :
  fst (PatternGenerator.computeValue 1000 (PatternGenerator.new 7 100) 2)
  = Returned (Num 1).
Proof. vm_compute. reflexivity. Qed.
Example value_7_100_3 :
  fst (PatternGenerator.computeValue 1000 (PatternGenerator.new 7 100) 3)
  = Returned (Num 7).
Proof. vm_compute. reflexivity. Qed.
Example value_7_100_200 :
  fst (PatternGenerator.computeValue 1000 (PatternGenerator.new 7 100) 200)
  = Returned (Num 7).
Proof. vm_compute. reflexivity. Qed.
Example value_7_0_0 :
  fst (PatternGenerator.computeValue 1000 (PatternGenerator.new 7 0) 0)
  = Threw RangeError.
Proof. vm_compute. reflexivity. Qed.
Example value_m7_100_2 :
  fst (PatternGenerator.computeValue 1000 (PatternGenerator.new (-7) 100) 2)
  = Returned NaN.
Proof. vm_compute. reflexivity. Qed.
Example value_7_3_m1 :
  fst (PatternGenerator.computeValue 1000 (PatternGenerator.new 7 3) (-1))
  = Returned (Num 1).
Proof. vm_compute. reflexivity. Qed.

(** Step 2^53 + 2: the step before is 2^53, for 2^53 + 1 is no double. *)
Example value_7_3_beyond :
  fst (PatternGenerator.computeValue 1000 (PatternGenerator.new 7 3)
         9007199254740994)
  = Returned (Num 7).
Proof. vm_compute. reflexivity. Qed.

(** Step 2^54 + 4: [step - 1] is [step] again. *)
Example value_7_3_stuck :
  fst (PatternGenerator.computeValue 1000 (PatternGenerator.new 7 3)
         18014398509481988)
  = Threw RangeError.
Proof. vm_compute. reflexivity. Qed.

(** Deeper than the stack has room for, and not so after warming the cache. *)
Example value_7_10000_deep :
  fst (PatternGenerator.computeValue 1000 (PatternGenerator.new 7 10000) 1999)
  = Threw RangeError
  /\ fst (PatternGenerator.computeValue 1000
            (snd (PatternGenerator.computeValue 1000
                    (PatternGenerator.new 7 10000) 1000))
            1999)
     = Returned (Num 4).
Proof. split; vm_compute; reflexivity. Qed.

Example observer_statistics :
  let o0 := MeshObserver.new {| seed := 7; phaseResetInterval := 100 |} in
  let o1 := snd (MeshObserver.observe 1000 0
                   {| senderId := "node1"; globalStep := 0;
                      patternValue := Num 7; data := "{}" |} o0) in
  let o2 := snd (MeshObserver.observe 1000 1
                   {| senderId := "node2"; globalStep := 1;
                      patternValue := Num 9; data := "{}" |} o1) in
  MeshObserver.getStatistics o2
  = {| MeshObserver.totalObserved := 2; MeshObserver.validMessages := 1;
       MeshObserver.anomalyCount := 1; MeshObserver.successRate := 50%float |}.
Proof. vm_compute. reflexivity. Qed.

(** * The pattern generator *)

(** The equation of the source: [sum > 9 ? this.collapseDigits(sum) : sum]. *)
Lemma collapseDigits_eqn (num : number) :
  collapseDigits num =
  let sum := digitSum num in
  if Number.gt sum (Num 9) then collapseDigits sum else sum.
Proof.
  cbn zeta. funelim (collapseDigits num);
    match goal with
    | E : Number.gt _ _ = _ |- _ => rewrite E; reflexivity
    end.
Qed.

(** Digit collapse is the digital root, as far as the integers are exact. *)
Lemma collapseDigits_root (n : Z) :
  1 <= n <= 2 ^ 53 -> collapseDigits (Num n) = Num (1 + (n - 1) mod 9).
Proof.
  intros Hn. assert (H0 : 0 <= n) by lia. revert Hn.
  pattern n. apply Z_lt_induction; [|exact H0].
  clear n H0. intros n IH Hn.
  rewrite collapseDigits_eqn. cbn zeta.
  destruct (digitSum_positive n) as (s & q & -> & Hv & Hq & Hs & H9); [lia|].
  assert (Hmod : (n - 1) mod 9 = (s - 1) mod 9).
  { replace (n - 1) with (s - 1 + q * 9) by lia. apply Z_mod_plus_full. }
  cbn [Number.gt]. destruct (s >? 9) eqn:E.
  - apply Z.gtb_lt in E. rewrite IH by lia. now rewrite Hmod.
  - rewrite Z.gtb_ltb in E. apply Z.ltb_ge in E.
    rewrite Hmod, Z.mod_small by lia. f_equal; lia.
Qed.

Lemma collapseDigits_zero : collapseDigits (Num 0) = Num 0.
Proof. reflexivity. Qed.

Lemma collapseDigits_NaN : collapseDigits NaN = NaN.
Proof. reflexivity. Qed.

Lemma collapseDigits_negative (n : Z) : n < 0 -> collapseDigits (Num n) = NaN.
Proof.
  intros Hn. destruct n as [|p|p]; try lia.
  rewrite collapseDigits_eqn. cbn zeta. now rewrite digitSum_neg.
Qed.

Lemma collapseDigits_Infinity (negative : bool) :
  collapseDigits (Infinity negative) = NaN.
Proof. rewrite collapseDigits_eqn. cbn zeta. now rewrite digitSum_Infinity. Qed.

Lemma boundary_test (step interval : Z) :
  interval <> 0 ->
  Number.strict_eq (Number.rem (Num step) (Num interval)) (Num 0)
  = (step mod Z.abs interval =? 0).
Proof.
  intros Hi. unfold Number.rem, Number.strict_eq.
  destruct (Z.eqb_spec interval 0) as [|_]; [contradiction|].
  destruct (Z.eqb_spec (Z.rem step interval) 0) as [E|E];
    destruct (Z.eqb_spec (step mod Z.abs interval) 0) as [F|F];
    try reflexivity; exfalso.
  - apply F. apply Z.mod_divide; [lia|].
    apply Z.divide_abs_l. now apply Z.rem_divide.
  - apply E. apply Z.rem_divide; [assumption|].
    apply Z.divide_abs_l. apply Z.mod_divide; [lia | assumption].
Qed.

Lemma boundary_test_zero (step : Z) :
  Number.strict_eq (Number.rem (Num step) (Num 0)) (Num 0) = false.
Proof. reflexivity. Qed.

Lemma valueAt_boundary (seed interval step : Z) :
  step mod Z.abs interval = 0 -> valueAt seed interval step = Num seed.
Proof. intros H. unfold valueAt. now rewrite H. Qed.

Lemma mod_pred (step m : Z) :
  0 < m -> step mod m <> 0 -> (step - 1) mod m = step mod m - 1.
Proof.
  intros Hm Hne.
  pose proof (Z.mod_pos_bound step m Hm) as Hb.
  symmetry. apply (Z.mod_unique_pos _ _ (step / m)); [lia|].
  pose proof (Z.div_mod step m). lia.
Qed.

Lemma valueAt_next (seed interval step : Z) :
  interval <> 0 -> step mod Z.abs interval <> 0 ->
  valueAt seed interval step
  = collapseDigits (Number.mul (valueAt seed interval (step - 1)) (Num seed)).
Proof.
  intros Hi Hne. unfold valueAt.
  rewrite (mod_pred step (Z.abs interval)) by lia.
  pose proof (Z.mod_pos_bound step (Z.abs interval)) as Hb.
  replace (Z.to_nat (step mod Z.abs interval))
    with (S (Z.to_nat (step mod Z.abs interval - 1))) by lia.
  reflexivity.
Qed.

(** ** The descent where it is exact *)

Lemma exact_descent_inv (interval step : Z) :
  exact_descent interval step = true ->
  - 2 ^ 53 <= step - step mod Z.abs interval /\ step <= 2 ^ 53.
Proof. unfold exact_descent. intros [H1 H2]%andb_prop. lia. Qed.

Lemma exact_descent_pred (interval step : Z) :
  interval <> 0 -> step mod Z.abs interval <> 0 ->
  exact_descent interval step = true ->
  Number.round (step - 1) = step - 1
  /\ exact_descent interval (step - 1) = true
  /\ depth interval step = S (depth interval (step - 1)).
Proof.
  intros Hi Hne [H1 H2]%exact_descent_inv.
  pose proof (Z.mod_pos_bound step (Z.abs interval)) as Hb.
  assert (Hp := mod_pred step (Z.abs interval) ltac:(lia) Hne).
  split; [apply round_exact; lia|]. split.
  - unfold exact_descent. rewrite Hp. apply andb_true_intro. lia.
  - unfold depth. rewrite Hp. lia.
Qed.

Lemma computable_inv (stack : nat) (interval step : Z) :
  computable stack interval step = true ->
  interval <> 0 /\ exact_descent interval step = true
  /\ (depth interval step <= stack)%nat.
Proof.
  unfold computable. intros [[H1 H2]%andb_prop H3]%andb_prop.
  apply negb_true_iff, Z.eqb_neq in H1. apply Nat.leb_le in H3. auto.
Qed.

Lemma computable_intro (stack : nat) (interval step : Z) :
  interval <> 0 -> - 2 ^ 53 <= step - step mod Z.abs interval ->
  step <= 2 ^ 53 -> (depth interval step <= stack)%nat ->
  computable stack interval step = true.
Proof.
  intros Hi H1 H2 H3. unfold computable, exact_descent.
  apply Z.eqb_neq in Hi. rewrite Hi. apply Nat.leb_le in H3. rewrite H3.
  cbn [negb andb]. rewrite andb_true_r. apply andb_true_intro. lia.
Qed.

(** From 0 to 2^53 every step has an exact descent. *)
Lemma exact_descent_nonneg (interval step : Z) :
  interval <> 0 -> 0 <= step <= 2 ^ 53 -> exact_descent interval step = true.
Proof.
  intros Hi Hs. unfold exact_descent.
  pose proof (Z.mod_pos_bound step (Z.abs interval) ltac:(lia)).
  pose proof (Z.mod_le step (Z.abs interval) ltac:(lia) ltac:(lia)).
  apply andb_true_intro. lia.
Qed.

(** ** What the recursion yields *)

Lemma yields_fun (seed interval step : Z) (v v' : number) :
  yields seed interval step v -> yields seed interval step v' -> v = v'.
Proof.
  intros H. revert v'.
  induction H as [step Hb|step pv Hb _ IH]; intros v' H';
    inversion H' as [step' Hb'|step' pv' Hb' Hpv']; subst;
    try congruence.
  now rewrite (IH pv' Hpv').
Qed.

Lemma yields_valueAt (seed interval : Z) (n : nat) :
  forall step,
    interval <> 0 -> exact_descent interval step = true ->
    depth interval step = n ->
    yields seed interval step (valueAt seed interval step).
Proof.
  induction n as [|n IH]; intros step Hi He Hn;
    pose proof (Z.mod_pos_bound step (Z.abs interval) ltac:(lia)) as Hb.
  - assert (E : step mod Z.abs interval = 0) by (unfold depth in Hn; lia).
    rewrite valueAt_boundary by exact E. apply yields_boundary.
    rewrite boundary_test by exact Hi. now rewrite E.
  - assert (E : step mod Z.abs interval <> 0) by (unfold depth in Hn; lia).
    destruct (exact_descent_pred interval step Hi E He) as (Hr & He' & Hd).
    rewrite valueAt_next by assumption. apply yields_next.
    + rewrite boundary_test by exact Hi. now apply Z.eqb_neq.
    + rewrite Hr. apply IH; [exact Hi | exact He' | lia].
Qed.

Lemma consistent_cache_set (g : PatternGenerator.t) (step : Z) (v : number) :
  consistent g ->
  yields (PatternGenerator.seed g) (PatternGenerator.phaseResetInterval g)
         step v ->
  consistent (PatternGenerator.cache_set step v g).
Proof.
  intros Hg Hv k v'. unfold PatternGenerator.cache_set.
  cbn [PatternGenerator.cache PatternGenerator.seed
       PatternGenerator.phaseResetInterval].
  destruct (decide (step = k)) as [<-|Hne].
  - rewrite lookup_insert_eq. now intros [= <-].
  - rewrite lookup_insert_ne by assumption. apply Hg.
Qed.

Lemma consistent_empty (g : PatternGenerator.t) :
  PatternGenerator.cache g = ∅ -> consistent g.
Proof. intros E k v. rewrite E, lookup_empty. discriminate. Qed.

(** What a returning recursion returns: seed and interval are kept, and on a
    consistent cache the value is what the recursion yields and the cache
    stays consistent. *)
Lemma computeValue_rec_sound (depth : nat) :
  forall (g g' : PatternGenerator.t) (step : Z) (v : number),
    PatternGenerator.computeValue_rec depth g step = Some (v, g') ->
    PatternGenerator.seed g' = PatternGenerator.seed g
    /\ PatternGenerator.phaseResetInterval g'
       = PatternGenerator.phaseResetInterval g
    /\ (consistent g ->
        consistent g'
        /\ yields (PatternGenerator.seed g)
                  (PatternGenerator.phaseResetInterval g) step v).
Proof.
  induction depth as [|depth IH]; intros g g' step v;
    cbn [PatternGenerator.computeValue_rec];
    destruct (PatternGenerator.cache g !! step) as [cached|] eqn:Hc;
    try (intros [= <- <-]; repeat split; try assumption; now apply H);
    destruct (Number.strict_eq _ _) eqn:Hb;
    try (intros [= <- <-]; repeat split; try assumption;
         [apply consistent_cache_set; [assumption|] |];
         now apply yields_boundary);
    try discriminate.
  destruct (PatternGenerator.computeValue_rec depth g (Number.round (step - 1)))
    as [[pv g1]|] eqn:E; [|discriminate].
  intros [= <- <-]. destruct (IH _ _ _ _ E) as (Hs & Hi & Hcons).
  cbn [PatternGenerator.cache_set PatternGenerator.seed
       PatternGenerator.phaseResetInterval].
  repeat split; try assumption.
  - destruct (Hcons H) as [Hc1 Hy]. apply consistent_cache_set; [assumption|].
    rewrite Hs, Hi. now apply yields_next.
  - destruct (Hcons H) as [_ Hy]. rewrite Hs. now apply yields_next.
Qed.

(** Where the descent is exact and the stack has room for it, the recursion
    returns, whatever is cached. *)
Lemma computeValue_rec_returns (fuel : nat) :
  forall (g : PatternGenerator.t) (step : Z),
    PatternGenerator.phaseResetInterval g <> 0 ->
    exact_descent (PatternGenerator.phaseResetInterval g) step = true ->
    (depth (PatternGenerator.phaseResetInterval g) step <= fuel)%nat ->
    is_Some (PatternGenerator.computeValue_rec fuel g step).
Proof.
  induction fuel as [|fuel IH]; intros g step Hi He Hd;
    cbn [PatternGenerator.computeValue_rec];
    pose proof (Z.mod_pos_bound step
                  (Z.abs (PatternGenerator.phaseResetInterval g))
                  ltac:(lia)) as Hb;
    (destruct (PatternGenerator.cache g !! step); [eauto|]);
    rewrite boundary_test by assumption;
    destruct (Z.eqb_spec
                (step mod Z.abs (PatternGenerator.phaseResetInterval g)) 0)
      as [E|E]; eauto.
  - unfold depth in Hd. lia.
  - destruct (exact_descent_pred _ step Hi E He) as (Hr & He' & Hd').
    rewrite Hr.
    destruct (IH g (step - 1) Hi He') as [[pv g1] ->]; [lia | eauto].
Qed.

Lemma computeValue_spec (stack : nat) (g : PatternGenerator.t) (step : Z) :
  computable stack (PatternGenerator.phaseResetInterval g) step = true ->
  exists v g',
    PatternGenerator.computeValue stack g step = (Returned v, g')
    /\ PatternGenerator.seed g' = PatternGenerator.seed g
    /\ PatternGenerator.phaseResetInterval g' = PatternGenerator.phaseResetInterval g
    /\ (consistent g ->
        consistent g'
        /\ v = valueAt (PatternGenerator.seed g)
                       (PatternGenerator.phaseResetInterval g) step).
Proof.
  intros (Hi & He & Hd)%computable_inv. unfold PatternGenerator.computeValue.
  destruct (computeValue_rec_returns stack g step Hi He Hd) as [[v g'] E].
  rewrite E. exists v, g'. split; [reflexivity|].
  destruct (computeValue_rec_sound _ _ _ _ _ E) as (Hs & Hi' & Hcons).
  repeat split; try assumption.
  - now apply Hcons.
  - destruct (Hcons H) as [_ Hy].
    eapply yields_fun; [exact Hy|].
    now apply (yields_valueAt _ _ _ step Hi He eq_refl).
Qed.

(** Whatever [computeValue] returns on a consistent cache is what the
    recursion yields. *)
Lemma computeValue_sound (stack : nat) (g g' : PatternGenerator.t) (step : Z)
  (v : number) :
  PatternGenerator.computeValue stack g step = (Returned v, g') ->
  consistent g ->
  consistent g'
  /\ yields (PatternGenerator.seed g) (PatternGenerator.phaseResetInterval g)
            step v.
Proof.
  unfold PatternGenerator.computeValue.
  destruct (PatternGenerator.computeValue_rec stack g step) as [[v0 g0]|] eqn:E;
    [|discriminate].
  intros [= <- <-]. now apply (computeValue_rec_sound _ _ _ _ _ E).
Qed.

(** With interval 0 and nothing cached no step is a base case. *)
Lemma computeValue_rec_nothing_cached (depth : nat) :
  forall (g : PatternGenerator.t) (step : Z),
    PatternGenerator.phaseResetInterval g = 0 ->
    PatternGenerator.cache g = ∅ ->
    PatternGenerator.computeValue_rec depth g step = None.
Proof.
  induction depth as [|depth IH]; intros g step Hi Hnone;
    cbn [PatternGenerator.computeValue_rec];
    rewrite Hnone, lookup_empty, Hi, boundary_test_zero; [reflexivity|].
  now rewrite IH.
Qed.

Lemma computeValue_interval_zero (stack : nat) (g : PatternGenerator.t)
  (step : Z) :
  PatternGenerator.phaseResetInterval g = 0 ->
  PatternGenerator.cache g = ∅ ->
  PatternGenerator.computeValue stack g step = (Threw RangeError, g).
Proof.
  intros Hi Hc. unfold PatternGenerator.computeValue.
  now rewrite computeValue_rec_nothing_cached.
Qed.

(** A step that is not cached, is no phase boundary and whose predecessor
    is the step itself: the recursion has no end, whatever the stack. *)
Lemma computeValue_rec_stuck (depth : nat) (g : PatternGenerator.t) (step : Z) :
  PatternGenerator.cache g !! step = None ->
  Number.strict_eq
    (Number.rem (Num step) (Num (PatternGenerator.phaseResetInterval g)))
    (Num 0) = false ->
  Number.round (step - 1) = step ->
  PatternGenerator.computeValue_rec depth g step = None.
Proof.
  intros Hc Hb Hr. induction depth as [|depth IH];
    cbn [PatternGenerator.computeValue_rec]; rewrite Hc, Hb; [reflexivity|].
  now rewrite Hr, IH.
Qed.

(** Whether it returns or throws, [computeValue] keeps seed and interval. *)
Lemma computeValue_config (stack : nat) (g : PatternGenerator.t) (step : Z) :
  PatternGenerator.seed (snd (PatternGenerator.computeValue stack g step))
  = PatternGenerator.seed g
  /\ PatternGenerator.phaseResetInterval
       (snd (PatternGenerator.computeValue stack g step))
     = PatternGenerator.phaseResetInterval g.
Proof.
  unfold PatternGenerator.computeValue.
  destruct (PatternGenerator.computeValue_rec stack g step) as [[v g']|] eqn:E;
    cbn [snd]; [|now split].
  now destruct (computeValue_rec_sound _ _ _ _ _ E) as (Hs & Hi & _).
Qed.

Lemma constructed_inv (seed interval : Z) (g : PatternGenerator.t) :
  constructed seed interval g ->
  PatternGenerator.seed g = seed
  /\ PatternGenerator.phaseResetInterval g = interval
  /\ consistent g
  /\ (interval = 0 -> PatternGenerator.cache g = ∅).
Proof.
  induction 1 as [|g stack step _ (Hs & Hi & Hc & Hz)|g _ (Hs & Hi & Hc & Hz)].
  - repeat split; try reflexivity. now apply consistent_empty.
  - destruct (PatternGenerator.computeValue stack g step) as [[v|e] g'] eqn:E.
    + destruct (computeValue_sound _ _ _ _ _ E Hc) as [Hc' _].
      pose proof (computeValue_config stack g step) as [Hs' Hi'].
      rewrite E in Hs', Hi'. cbn [snd] in *.
      split; [congruence|]. split; [congruence|]. split; [exact Hc'|].
      intros Hzero.
      rewrite computeValue_interval_zero in E; [discriminate E | congruence|].
      now apply Hz.
    + unfold PatternGenerator.computeValue in E.
      destruct (PatternGenerator.computeValue_rec stack g step) as [[v0 g0]|];
        [discriminate|]. injection E as _ <-. cbn [snd]. now repeat split.
  - repeat split; try assumption; try reflexivity.
    now apply consistent_empty.
Qed.

(** ** More room changes nothing *)

Lemma computeValue_rec_more (depth : nat) :
  forall (g : PatternGenerator.t) (step : Z) (r : number * PatternGenerator.t)
         (depth' : nat),
    PatternGenerator.computeValue_rec depth g step = Some r ->
    (depth <= depth')%nat ->
    PatternGenerator.computeValue_rec depth' g step = Some r.
Proof.
  induction depth as [|depth IH]; intros g step r depth' H Hle;
    destruct depth' as [|depth']; try lia;
    cbn [PatternGenerator.computeValue_rec] in *;
    destruct (PatternGenerator.cache g !! step); try exact H;
    destruct (Number.strict_eq _ _); try exact H; try discriminate H.
  destruct (PatternGenerator.computeValue_rec depth g (Number.round (step - 1)))
    as [r1|] eqn:E; [|discriminate H].
  rewrite (IH g _ r1 depth' E) by lia. exact H.
Qed.

(** A call that returns on some stack returns the same on every larger one. *)
Lemma computeValue_more (stack stack' : nat) (g g' : PatternGenerator.t)
  (step : Z) (v : number) :
  PatternGenerator.computeValue stack g step = (Returned v, g') ->
  (stack <= stack')%nat ->
  PatternGenerator.computeValue stack' g step = (Returned v, g').
Proof.
  unfold PatternGenerator.computeValue.
  destruct (PatternGenerator.computeValue_rec stack g step) as [r|] eqn:E;
    [|discriminate].
  intros H Hle. now rewrite (computeValue_rec_more _ _ _ _ _ E Hle).
Qed.

(** With a seed from 1 to 9 every value is a digit from 1 to 9. *)
Lemma yields_digit (seed interval step : Z) (v : number) :
  1 <= seed <= 9 -> yields seed interval step v ->
  exists d, v = Num d /\ 1 <= d <= 9.
Proof.
  intros Hs. induction 1 as [step Hb|step pv Hb _ (d & -> & Hd)].
  - exists seed. now split.
  - rewrite mul_exact by nia. rewrite collapseDigits_root by nia.
    eexists; split; [reflexivity|].
    pose proof (Z.mod_pos_bound (d * seed - 1) 9). lia.
Qed.

(** C6 (amended): for every generator constructed with a single-digit seed
    (1 to 9) and a reset interval above 0, and every step from 0 on:
    whenever [computeValue(step)] returns, the value is between 0 and 9
    inclusive; and it returns whenever the step is at most 2^53 and the
    phase boundary below it is within the room of the call stack. *)
Theorem C6_computeValue_between_0_and_9
  (stack : nat) (seed interval : Z) (g : PatternGenerator.t) (step : Z) :
  1 <= seed <= 9 -> 0 < interval ->
  constructed seed interval g -> 0 <= step ->
  (forall v g',
      PatternGenerator.computeValue stack g step = (Returned v, g') ->
      exists d, v = Num d /\ 0 <= d <= 9)
  /\ (step <= 2 ^ 53 -> (depth interval step <= stack)%nat ->
      exists d,
        fst (PatternGenerator.computeValue stack g step) = Returned (Num d)
        /\ 0 <= d <= 9).
Proof.
  intros Hseed Hint Hg Hstep.
  destruct (constructed_inv _ _ _ Hg) as (Hs & Hi & Hc & _).
  assert (Hret : forall v g',
             PatternGenerator.computeValue stack g step = (Returned v, g') ->
             exists d, v = Num d /\ 0 <= d <= 9).
  { intros v g' E. destruct (computeValue_sound _ _ _ _ _ E Hc) as [_ Hy].
    rewrite Hs, Hi in Hy.
    destruct (yields_digit _ _ _ _ Hseed Hy) as (d & -> & Hd).
    exists d. split; [reflexivity | lia]. }
  split; [exact Hret|]. intros Hle Hd.
  destruct (computeValue_spec stack g step) as (v & g' & E & _).
  { rewrite Hi. apply computable_intro; try lia.
    pose proof (Z.mod_le step (Z.abs interval) ltac:(lia) ltac:(lia)). lia. }
  destruct (Hret v g' E) as (d & -> & Hdigit).
  exists d. rewrite E. split; [reflexivity | exact Hdigit].
Qed.

Lemma C6_witness :
  exists d,
    fst (PatternGenerator.computeValue 1000
           (snd (PatternGenerator.computeValue 1000
                   (PatternGenerator.new 7 100) 50))
           2)
    = Returned (Num d)
    /\ 0 <= d <= 9.
Proof.
  destruct (C6_computeValue_between_0_and_9 1000 7 100
              (snd (PatternGenerator.computeValue 1000
                      (PatternGenerator.new 7 100) 50)) 2)
    as [_ H]; [lia | lia | | lia |].
  - apply constructed_computeValue, constructed_new.
  - apply H; [lia | vm_compute; lia].
Defined.

(** C6, as stated, fails: at step 2^54 + 4 the step before, [step - 1], is
    the step itself, so a generator with seed 7 and interval 3 recurses
    without end and throws on every stack; and a fresh generator with
    interval 10000 asked for step 9999 needs 9999 nested calls. *)
Lemma C6_no_value_beyond_the_doubles :
  0 <= 18014398509481988
  /\ (forall stack,
         fst (PatternGenerator.computeValue stack (PatternGenerator.new 7 3)
                18014398509481988)
         = Threw RangeError)
  /\ fst (PatternGenerator.computeValue 1000 (PatternGenerator.new 7 10000) 9999)
     = Threw RangeError.
Proof.
  split; [lia|]. split.
  - intros stack. unfold PatternGenerator.computeValue.
    rewrite computeValue_rec_stuck; [reflexivity | apply lookup_empty | |];
      vm_compute; reflexivity.
  - vm_compute. reflexivity.
Qed.

(** C10 (amended): digit collapse is the digital root as far as the
    integers are exact: for every integer [n] from 1 to 2^53,
    [collapseDigits(n) = 1 + ((n - 1) mod 9)], a value from 1 to 9; and at a
    step that is no phase boundary, when [computeValue] returns
    [previousValue] for the step before and [previousValue * seed] is from 1
    to 2^53, [computeValue], with room for one more nested call, returns
    [1 + ((previousValue * seed - 1) mod 9)]. *)
Theorem C10_collapseDigits_is_digital_root (n : Z) :
  1 <= n <= 2 ^ 53 ->
  collapseDigits (Num n) = Num (1 + (n - 1) mod 9)
  /\ 1 <= 1 + (n - 1) mod 9 <= 9
  /\ forall (stack : nat) (seed interval : Z) (g : PatternGenerator.t)
            (step previousValue : Z),
      constructed seed interval g ->
      Number.strict_eq (Number.rem (Num step) (Num interval)) (Num 0) = false ->
      Z.abs (step - 1) <= 2 ^ 53 ->
      fst (PatternGenerator.computeValue stack g (step - 1))
      = Returned (Num previousValue) ->
      1 <= previousValue * seed <= 2 ^ 53 ->
      fst (PatternGenerator.computeValue (S stack) g step)
      = Returned (Num (1 + (previousValue * seed - 1) mod 9)).
Proof.
  intros Hn. split; [now apply collapseDigits_root|]. split.
  { pose proof (Z.mod_pos_bound (n - 1) 9). lia. }
  intros stack seed interval g step p Hg Hstep Hexact Hprev Hp.
  destruct (constructed_inv _ _ _ Hg) as (Hs & Hi & Hc & Hz).
  pose proof (round_exact _ Hexact) as Hr.
  unfold PatternGenerator.computeValue in Hprev.
  destruct (PatternGenerator.computeValue_rec stack g (step - 1))
    as [[pv g1]|] eqn:E1; [|discriminate Hprev].
  cbn [fst] in Hprev. injection Hprev as ->.
  destruct (computeValue_rec_sound _ _ _ _ _ E1) as (Hs1 & _ & Hcons).
  destruct (Hcons Hc) as [_ Hy1]. rewrite Hs, Hi in Hy1.
  unfold PatternGenerator.computeValue.
  cbn [PatternGenerator.computeValue_rec].
  destruct (PatternGenerator.cache g !! step) as [cached|] eqn:Hcached.
  - cbn [fst]. f_equal. pose proof (Hc _ _ Hcached) as Hy. rewrite Hs, Hi in Hy.
    inversion Hy as [step' Hb|step' pv' Hb Hpv']; subst; [congruence|].
    rewrite Hr in Hpv'. rewrite (yields_fun _ _ _ _ _ Hpv' Hy1).
    rewrite mul_exact by lia. now apply collapseDigits_root.
  - rewrite Hi, Hstep, Hr, E1. cbn [fst]. rewrite Hs1, Hs.
    rewrite mul_exact by lia. f_equal. now apply collapseDigits_root.
Qed.

Lemma C10_witness :
  collapseDigits (Num 49) = Num (1 + (49 - 1) mod 9)
  /\ fst (PatternGenerator.computeValue 1000 (PatternGenerator.new 7 100) 1)
     = Returned (Num (1 + (7 * 7 - 1) mod 9)).
Proof.
  destruct (C10_collapseDigits_is_digital_root 49) as (Hroot & _ & Hstep);
    [lia|].
  split; [exact Hroot|].
  apply (Hstep 999%nat 7 100 (PatternGenerator.new 7 100) 1 7);
    [apply constructed_new | reflexivity | lia | reflexivity | lia].
Defined.

(** C10, as stated, fails beyond 2^53: [String(1e21)] is ["1e+21"], whose
    [e] parses to NaN, where the digital root of 10^21 is 1; and with seed
    94906267 the product [seed * seed] is rounded to the nearest double, so
    that step 1 has the value 3 where the digital root of the product
    is 4. *)
Lemma C10_no_digital_root_beyond_the_doubles :
  1 <= 10 ^ 21
  /\ collapseDigits (Num (10 ^ 21)) = NaN
  /\ Num (1 + (10 ^ 21 - 1) mod 9) = Num 1
  /\ fst (PatternGenerator.computeValue 1000
            (PatternGenerator.new 94906267 4) 0)
     = Returned (Num 94906267)
  /\ 1 + (94906267 * 94906267 - 1) mod 9 = 4
  /\ fst (PatternGenerator.computeValue 1000
            (PatternGenerator.new 94906267 4) 1)
     = Returned (Num 3).
Proof. repeat split; vm_compute; try reflexivity; discriminate. Qed.

(** * Running the methods *)

Lemma bind_returned {A B : Type} (c : M A) (k : A -> M B) (w w' : World) (a : A) :
  c w = (Returned a, w') -> (c ≫= k) w = k a w'.
Proof. intros H. unfold mbind, M_bind. now rewrite H. Qed.

Lemma bind_threw {A B : Type} (c : M A) (k : A -> M B) (w w' : World) (e : exn) :
  c w = (Threw e, w') -> (c ≫= k) w = (Threw e, w').
Proof. intros H. unfold mbind, M_bind. now rewrite H. Qed.

Lemma deref_some (r : ref) (o : MeshNode.t) (w : World) :
  heap w !! r = Some o -> deref r w = (Returned o, w).
Proof. intros H. unfold deref. now rewrite H. Qed.

Lemma deref_none (r : ref) (w : World) :
  heap w !! r = None -> deref r w = (Threw TypeError, w).
Proof. intros H. unfold deref. now rewrite H. Qed.

Lemma forEach_invoked (arg : payload) (l : list nat) (w : World) :
  forEach (fun id => log (Invoked id arg)) l w
  = (Returned tt,
     {| stack := stack w; heap := heap w; nodes := nodes w;
        trace := trace w ++ map (fun id => Invoked id arg) l |}).
Proof.
  revert w. induction l as [|id l IH]; intros w.
  - destruct w. cbn. now rewrite app_nil_r.
  - cbn [forEach]. erewrite bind_returned by reflexivity.
    rewrite IH. cbn. now rewrite <- app_assoc.
Qed.

Lemma emit_spec (this : ref) (name : string) (arg : payload)
  (listeners : EventEmitter -> list nat) (o : MeshNode.t) (w : World) :
  heap w !! this = Some o ->
  emit this name arg listeners w
  = (Returned tt,
     {| stack := stack w; heap := heap w; nodes := nodes w;
        trace := trace w ++ Emitted this name arg
                   :: map (fun id => Invoked id arg)
                          (listeners (MeshNode.eventEmitter o)) |}).
Proof.
  intros H. unfold emit.
  erewrite bind_returned by reflexivity.
  erewrite bind_returned by (apply deref_some; exact H).
  rewrite forEach_invoked. cbn. now rewrite <- app_assoc.
Qed.

Lemma MeshNode_computeValue_spec (this : ref) (step : Z) (o : MeshNode.t)
  (w : World) :
  heap w !! this = Some o ->
  MeshNode_computeValue this step w
  = (match fst (PatternGenerator.computeValue (stack w) (MeshNode.pattern o) step) with
     | Returned value => Returned value
     | Threw e => Threw e
     end,
     {| stack := stack w; heap := <[this := MeshNode.set_pattern
                            (snd (PatternGenerator.computeValue (stack w)
                                    (MeshNode.pattern o) step)) o]> (heap w);
        nodes := nodes w; trace := trace w |}).
Proof.
  intros H. unfold MeshNode_computeValue.
  erewrite bind_returned by (apply deref_some; exact H).
  erewrite bind_returned by reflexivity.
  destruct (PatternGenerator.computeValue (stack w) (MeshNode.pattern o) step)
    as [[value|e] p']; cbn [fst snd];
    erewrite bind_returned by reflexivity; reflexivity.
Qed.

Lemma MeshNode_sync_spec (this : ref) (targetStep : Z) (o : MeshNode.t)
  (w : World) :
  heap w !! this = Some o ->
  MeshNode_sync this targetStep w
  = if targetStep >? MeshNode.globalStep o
    then (Returned tt,
          {| stack := stack w; heap := <[this := MeshNode.set_globalStep targetStep o]> (heap w);
             nodes := nodes w;
             trace := trace w ++ Emitted this "sync" (OfStep targetStep)
                        :: map (fun id => Invoked id (OfStep targetStep))
                               (on_sync (MeshNode.eventEmitter o)) |})
    else (Returned tt, w).
Proof.
  intros H. unfold MeshNode_sync.
  erewrite bind_returned by (apply deref_some; exact H).
  destruct (targetStep >? MeshNode.globalStep o); [|reflexivity].
  erewrite bind_returned by reflexivity.
  rewrite (emit_spec this _ _ _ (MeshNode.set_globalStep targetStep o)).
  - reflexivity.
  - cbn. apply list_lookup_insert_eq. now apply lookup_lt_Some in H.
Qed.

(** What one call of [receive] does, case by case. *)
Lemma MeshNode_receive_spec (this : ref) (m : Message) (o : MeshNode.t)
  (w : World) :
  heap w !! this = Some o ->
  MeshNode_receive this m w
  = let '(result, p') :=
      PatternGenerator.computeValue (stack w) (MeshNode.pattern o) (globalStep m) in
    let o1 := MeshNode.set_pattern p' o in
    match result with
    | Threw e =>
        (Threw e,
         {| stack := stack w; heap := <[this := o1]> (heap w); nodes := nodes w;
            trace := trace w ++ [Received this m] |})
    | Returned expected =>
        if Number.strict_ne expected (patternValue m)
        then
          let error := OfError "pattern-mismatch" m expected in
          (Returned tt,
           {| stack := stack w; heap := <[this := o1]> (heap w); nodes := nodes w;
              trace := trace w ++ Received this m :: Emitted this "error" error
                         :: map (fun id => Invoked id error)
                                (on_error (MeshNode.eventEmitter o)) |})
        else if globalStep m >? MeshNode.globalStep o
        then
          (Returned tt,
           {| stack := stack w; heap := <[this := MeshNode.set_globalStep (globalStep m) o1]> (heap w);
              nodes := nodes w;
              trace := trace w ++ Received this m
                         :: Emitted this "sync" (OfStep (globalStep m))
                         :: map (fun id => Invoked id (OfStep (globalStep m)))
                                (on_sync (MeshNode.eventEmitter o))
                         ++ Emitted this "message" (OfMessage m)
                         :: map (fun id => Invoked id (OfMessage m))
                                (on_message (MeshNode.eventEmitter o)) |})
        else
          (Returned tt,
           {| stack := stack w; heap := <[this := o1]> (heap w); nodes := nodes w;
              trace := trace w ++ Received this m
                         :: Emitted this "message" (OfMessage m)
                         :: map (fun id => Invoked id (OfMessage m))
                                (on_message (MeshNode.eventEmitter o)) |})
    end.
Proof.
  intros H. pose proof (lookup_lt_Some _ _ _ H) as Hlt.
  unfold MeshNode_receive.
  erewrite bind_returned by reflexivity.
  destruct (PatternGenerator.computeValue (stack w) (MeshNode.pattern o) (globalStep m))
    as [[expected|e] p'] eqn:E; cbn zeta.
  - erewrite bind_returned; cycle 1.
    { rewrite (MeshNode_computeValue_spec this _ o) by exact H.
      cbn [stack]. rewrite E. reflexivity. }
    cbn [fst snd].
    destruct (Number.strict_ne expected (patternValue m)).
    + rewrite (emit_spec this _ _ _ (MeshNode.set_pattern p' o))
        by (cbn; now apply list_lookup_insert_eq).
      cbn. now rewrite <- app_assoc.
    + destruct (globalStep m >? MeshNode.globalStep o) eqn:Hgt.
      * erewrite bind_returned; cycle 1.
        { rewrite (MeshNode_sync_spec this _ (MeshNode.set_pattern p' o))
            by (cbn; now apply list_lookup_insert_eq).
          cbn [MeshNode.set_pattern MeshNode.globalStep]. rewrite Hgt.
          reflexivity. }
        rewrite (emit_spec this _ _ _
                   (MeshNode.set_globalStep (globalStep m)
                      (MeshNode.set_pattern p' o)))
          by (cbn; rewrite list_insert_insert_eq;
              now apply list_lookup_insert_eq).
        cbn. rewrite list_insert_insert_eq.
        repeat (rewrite <- app_assoc; cbn [app]). reflexivity.
      * erewrite bind_returned; cycle 1.
        { rewrite (MeshNode_sync_spec this _ (MeshNode.set_pattern p' o))
            by (cbn; now apply list_lookup_insert_eq).
          cbn [MeshNode.set_pattern MeshNode.globalStep]. rewrite Hgt.
          reflexivity. }
        rewrite (emit_spec this _ _ _ (MeshNode.set_pattern p' o))
          by (cbn; now apply list_lookup_insert_eq).
        cbn. now rewrite <- app_assoc.
  - erewrite bind_threw; [reflexivity|].
    rewrite (MeshNode_computeValue_spec this _ o) by exact H.
    cbn [stack]. rewrite E. reflexivity.
Qed.

(** * What no method changes, and the one direction the step moves *)

Lemma node_le_refl (o : MeshNode.t) : node_le o o.
Proof. unfold node_le. repeat split; lia. Qed.

Lemma node_le_trans (o1 o2 o3 : MeshNode.t) :
  node_le o1 o2 -> node_le o2 o3 -> node_le o1 o3.
Proof. unfold node_le. intros (?&?&?&?&?) (?&?&?&?&?). repeat split; try congruence; lia. Qed.

Lemma world_le_refl (w : World) : world_le w w.
Proof.
  repeat split. intros r o H. exists o. split; [exact H | apply node_le_refl].
Qed.

Lemma world_le_trans (w1 w2 w3 : World) :
  world_le w1 w2 -> world_le w2 w3 -> world_le w1 w3.
Proof.
  intros (Hst & Hn & Hl & Hh) (Hst' & Hn' & Hl' & Hh').
  repeat split; try congruence.
  intros r o H. destruct (Hh r o H) as (o2 & H2 & Hle).
  destruct (Hh' r o2 H2) as (o3 & H3 & Hle').
  exists o3. split; [exact H3 | eapply node_le_trans; eassumption].
Qed.

Lemma world_le_trace (w : World) (t : list action) :
  world_le w {| stack := stack w; heap := heap w; nodes := nodes w; trace := t |}.
Proof.
  repeat split. intros r o H. exists o. split; [exact H | apply node_le_refl].
Qed.

Lemma world_le_insert (w : World) (this : ref) (o o' : MeshNode.t)
  (t : list action) :
  heap w !! this = Some o -> node_le o o' ->
  world_le w {| stack := stack w; heap := <[this := o']> (heap w); nodes := nodes w; trace := t |}.
Proof.
  intros H Hle. repeat split; cbn [heap nodes trace stack];
    [apply length_insert|].
  intros r o0 Hr. destruct (decide (this = r)) as [<-|Hne].
  - exists o'. rewrite list_lookup_insert_eq by (now apply lookup_lt_Some in H).
    split; [reflexivity|]. rewrite H in Hr. now injection Hr as <-.
  - exists o0. rewrite list_lookup_insert_ne by assumption.
    split; [exact Hr | apply node_le_refl].
Qed.

Lemma preserving_ret {A : Type} (a : A) : preserving (mret a).
Proof. intros w. apply world_le_refl. Qed.

Lemma preserving_throw {A : Type} (e : exn) : preserving (@throw A e).
Proof. intros w. apply world_le_refl. Qed.

Lemma preserving_log (a : action) : preserving (log a).
Proof. intros w. apply world_le_trace. Qed.

Lemma preserving_deref (r : ref) : preserving (deref r).
Proof. intros w. unfold deref. destruct (heap w !! r); apply world_le_refl. Qed.

Lemma preserving_bind {A B : Type} (c : M A) (k : A -> M B) :
  preserving c -> (forall a, preserving (k a)) -> preserving (c ≫= k).
Proof.
  intros Hc Hk w. unfold mbind, M_bind. specialize (Hc w).
  destruct (c w) as [[a|e] w1]; cbn [snd] in *; [|exact Hc].
  eapply world_le_trans; [exact Hc | apply Hk].
Qed.

Lemma preserving_forEach {A : Type} (f : A -> M unit) (l : list A) :
  (forall x, preserving (f x)) -> preserving (forEach f l).
Proof.
  intros Hf. induction l as [|x l IH]; cbn [forEach].
  - apply preserving_ret.
  - apply preserving_bind; [apply Hf | intros _; exact IH].
Qed.

Lemma preserving_emit (this : ref) (name : string) (arg : payload)
  (listeners : EventEmitter -> list nat) :
  preserving (emit this name arg listeners).
Proof.
  unfold emit. apply preserving_bind; [apply preserving_log | intros _].
  apply preserving_bind; [apply preserving_deref | intros o].
  apply preserving_forEach. intros id. apply preserving_log.
Qed.

Lemma preserving_computeValue (this : ref) (step : Z) :
  preserving (MeshNode_computeValue this step).
Proof.
  intros w. destruct (heap w !! this) as [o|] eqn:H.
  - rewrite (MeshNode_computeValue_spec this step o w H). cbn [snd].
    apply (world_le_insert w this o); [exact H|].
    destruct (computeValue_config (stack w) (MeshNode.pattern o) step)
      as [Hs Hi].
    unfold node_le. cbn. repeat split; try assumption; lia.
  - unfold MeshNode_computeValue.
    erewrite bind_threw by (apply deref_none; exact H). apply world_le_refl.
Qed.

Lemma preserving_sync (this : ref) (targetStep : Z) :
  preserving (MeshNode_sync this targetStep).
Proof.
  intros w. destruct (heap w !! this) as [o|] eqn:H.
  - rewrite (MeshNode_sync_spec this targetStep o w H).
    destruct (targetStep >? MeshNode.globalStep o) eqn:Hgt; cbn [snd].
    + apply (world_le_insert w this o); [exact H|].
      apply Z.gtb_lt in Hgt. unfold node_le. cbn. repeat split; lia.
    + apply world_le_refl.
  - unfold MeshNode_sync.
    erewrite bind_threw by (apply deref_none; exact H). apply world_le_refl.
Qed.

Lemma preserving_incrementStep (this : ref) :
  preserving (MeshNode_incrementStep this).
Proof.
  intros w. unfold MeshNode_incrementStep. destruct (heap w !! this) as [o|] eqn:H.
  - erewrite bind_returned by (apply deref_some; exact H). cbn [snd assign].
    apply (world_le_insert w this o); [exact H|].
    unfold node_le. cbn. repeat split. apply increment_le.
  - erewrite bind_threw by (apply deref_none; exact H). apply world_le_refl.
Qed.

Lemma preserving_receive (this : ref) (m : Message) :
  preserving (MeshNode_receive this m).
Proof.
  unfold MeshNode_receive.
  apply preserving_bind; [apply preserving_log | intros _].
  apply preserving_bind; [apply preserving_computeValue | intros expected].
  destruct (Number.strict_ne expected (patternValue m)).
  - apply preserving_emit.
  - apply preserving_bind; [apply preserving_sync | intros _].
    apply preserving_emit.
Qed.

Lemma preserving_network_broadcast (m : Message) (sender : ref) :
  preserving (MeshNetwork_broadcast m sender).
Proof.
  intros w. unfold MeshNetwork_broadcast.
  apply preserving_forEach. intros [k r].
  destruct (String.eqb k (senderId m));
    [apply preserving_ret | apply preserving_receive].
Qed.

Lemma preserving_broadcast (this : ref) (data : any) :
  preserving (MeshNode_broadcast this data).
Proof.
  unfold MeshNode_broadcast.
  apply preserving_bind; [apply preserving_deref | intros o].
  apply preserving_bind; [apply preserving_computeValue | intros value].
  apply preserving_bind; [apply preserving_log | intros _].
  apply preserving_bind; [|intros _; apply preserving_incrementStep].
  apply preserving_forEach. intros [node|id]; cbn [call].
  - apply preserving_network_broadcast.
  - apply preserving_log.
Qed.

(** Two different values differ for [!==] too ([NaN !== NaN] holds besides). *)
Lemma different_strict_ne (a b : number) : a <> b -> Number.strict_ne a b = true.
Proof.
  unfold Number.strict_ne, Number.strict_eq.
  destruct a as [x| |s], b as [y| |s']; try reflexivity; intros H.
  - destruct (Z.eqb_spec x y) as [->|]; [now contradict H | reflexivity].
  - destruct s, s'; try reflexivity; now contradict H.
Qed.

(** Once computed, the value of a step is in the cache and comes back. *)
Lemma computeValue_rec_cached (depth : nat) :
  forall (g g' : PatternGenerator.t) (step : Z) (v : number),
    PatternGenerator.computeValue_rec depth g step = Some (v, g') ->
    PatternGenerator.cache g' !! step = Some v.
Proof.
  destruct depth as [|depth]; intros g g' step v;
    cbn [PatternGenerator.computeValue_rec];
    destruct (PatternGenerator.cache g !! step) eqn:Hc;
    try (intros [= <- <-]; exact Hc);
    destruct (Number.strict_eq _ _);
    try (intros [= <- <-]; cbn; apply lookup_insert_eq); try discriminate.
  destruct (PatternGenerator.computeValue_rec depth g (Number.round (step - 1)))
    as [[pv g1]|]; [|discriminate].
  intros [= <- <-]. cbn. apply lookup_insert_eq.
Qed.

Lemma computeValue_again (stack stack' : nat) (g g' : PatternGenerator.t)
  (step : Z) (v : number) :
  PatternGenerator.computeValue stack g step = (Returned v, g') ->
  PatternGenerator.computeValue stack' g' step = (Returned v, g').
Proof.
  unfold PatternGenerator.computeValue at 1.
  destruct (PatternGenerator.computeValue_rec _ g step) as [[v0 g0]|] eqn:E;
    [|discriminate].
  intros [= -> ->]. apply computeValue_rec_cached in E.
  unfold PatternGenerator.computeValue.
  destruct stack'; cbn [PatternGenerator.computeValue_rec]; now rewrite E.
Qed.

Lemma preserving_perform (c : method_call) : preserving (perform c).
Proof.
  destruct c; cbn [perform];
    [apply preserving_broadcast | apply preserving_receive | apply preserving_sync].
Qed.

Lemma world_le_run (calls : list method_call) (w : World) :
  world_le w (run calls w).
Proof.
  revert w. induction calls as [|c calls IH]; intros w; cbn [run].
  - apply world_le_refl.
  - eapply world_le_trans; [apply preserving_perform | apply IH].
Qed.

(** * The node *)

(** C4: for every node and every message whose pattern value differs (for
    [!==]) from the value the node's own generator computes for the
    message's step, [receive] emits an [error] event of type
    [pattern-mismatch] that carries the message and the expected value, emits
    no [message] event, and leaves the node's [globalStep] unchanged. *)
Theorem C4_receive_mismatch
  (w : World) (this : ref) (o : MeshNode.t) (m : Message)
  (expected : number) (p' : PatternGenerator.t) :
  heap w !! this = Some o ->
  PatternGenerator.computeValue (stack w) (MeshNode.pattern o) (globalStep m)
  = (Returned expected, p') ->
  Number.strict_ne expected (patternValue m) = true ->
  exists w' new,
    MeshNode_receive this m w = (Returned tt, w')
    /\ trace w' = trace w ++ new
    /\ new = Received this m
             :: Emitted this "error" (OfError "pattern-mismatch" m expected)
             :: map (fun id => Invoked id (OfError "pattern-mismatch" m expected))
                    (on_error (MeshNode.eventEmitter o))
    /\ (forall node arg, ~ In (Emitted node "message" arg) new)
    /\ exists o', heap w' !! this = Some o'
                  /\ MeshNode.globalStep o' = MeshNode.globalStep o.
Proof.
  intros H Hv Hne. rewrite (MeshNode_receive_spec this m o w H), Hv.
  cbn zeta. rewrite Hne.
  eexists _, _. split; [reflexivity|]. cbn [trace heap].
  split; [reflexivity|]. split; [reflexivity|]. split.
  - intros node arg [Hin|[Hin|Hin]]; try discriminate Hin.
    apply in_map_iff in Hin. destruct Hin as (id & Hin & _). discriminate Hin.
  - eexists. split;
      [apply list_lookup_insert_eq; now apply lookup_lt_Some in H | reflexivity].
Qed.

Lemma C4_witness :
  let m := {| senderId := "p"; globalStep := 0; patternValue := Num 9;
              data := "{}" |} in
  exists w' o',
    MeshNode_receive 1 m three_nodes_at_5 = (Returned tt, w')
    /\ trace w' = trace three_nodes_at_5
                  ++ [Received 1 m;
                      Emitted 1 "error" (OfError "pattern-mismatch" m (Num 7));
                      Invoked 11 (OfError "pattern-mismatch" m (Num 7))]
    /\ heap w' !! 1%nat = Some o' /\ MeshNode.globalStep o' = 5.
Proof.
  intros m.
  edestruct C4_receive_mismatch
    with (w := three_nodes_at_5) (this := 1%nat) (m := m)
    as (w' & new & Hr & Ht & Hnew & _ & o' & Ho & Hs);
    [reflexivity | reflexivity | reflexivity |].
  exists w', o'. rewrite Hr, Ht, Hnew. repeat split; assumption.
Defined.

(** C5: for every node, [globalStep] never decreases: after any single
    [broadcast], [receive] or [sync] call on any node of the world, and hence
    after any finite sequence of such calls, it is at least what it was
    before, whether the calls return or throw. *)
Theorem C5_globalStep_monotone (w : World) (node : ref) (o : MeshNode.t) :
  heap w !! node = Some o ->
  (forall c : method_call,
      exists o', heap (snd (perform c w)) !! node = Some o'
                 /\ MeshNode.globalStep o <= MeshNode.globalStep o')
  /\ (forall calls : list method_call,
         exists o', heap (run calls w) !! node = Some o'
                    /\ MeshNode.globalStep o <= MeshNode.globalStep o').
Proof.
  intros H. split.
  - intros c. destruct (preserving_perform c w) as (_ & _ & _ & Hh).
    destruct (Hh node o H) as (o' & Ho' & Hle). exists o'.
    split; [exact Ho' | apply Hle].
  - intros calls. destruct (world_le_run calls w) as (_ & _ & _ & Hh).
    destruct (Hh node o H) as (o' & Ho' & Hle). exists o'.
    split; [exact Ho' | apply Hle].
Qed.

Lemma C5_witness :
  exists o',
    heap (run [Broadcast 0 "{}"; Sync 1 5; Receive 1
                 {| senderId := "p"; globalStep := 3; patternValue := Num 7;
                    data := "{}" |}; Broadcast 1 "{}"] three_nodes) !! 1%nat
    = Some o'
    /\ 0 <= MeshNode.globalStep o'.
Proof.
  edestruct C5_globalStep_monotone with (w := three_nodes) (node := 1%nat)
    as [_ Hrun]; [reflexivity|].
  exact (Hrun _).
Defined.

(** C8: stale replays pass validation: for every node N and every message m
    with [0 <= m.globalStep <= N.globalStep] whose pattern value equals (for
    [===]) the value of N's generator at [m.globalStep], [receive(m)] emits a
    [message] event with m and leaves [N.globalStep] exactly unchanged; and
    the node tells a replay from nothing: receiving m once more does the
    same again. *)
Theorem C8_stale_replay_accepted
  (w : World) (this : ref) (o : MeshNode.t) (m : Message)
  (expected : number) (p' : PatternGenerator.t) :
  heap w !! this = Some o ->
  0 <= globalStep m <= MeshNode.globalStep o ->
  PatternGenerator.computeValue (stack w) (MeshNode.pattern o) (globalStep m)
  = (Returned expected, p') ->
  Number.strict_eq expected (patternValue m) = true ->
  let accepted :=
    Received this m :: Emitted this "message" (OfMessage m)
      :: map (fun id => Invoked id (OfMessage m))
             (on_message (MeshNode.eventEmitter o)) in
  exists w' o',
    MeshNode_receive this m w = (Returned tt, w')
    /\ trace w' = trace w ++ accepted
    /\ heap w' !! this = Some o'
    /\ MeshNode.globalStep o' = MeshNode.globalStep o
    /\ exists w'' o'',
        MeshNode_receive this m w' = (Returned tt, w'')
        /\ trace w'' = trace w' ++ accepted
        /\ heap w'' !! this = Some o''
        /\ MeshNode.globalStep o'' = MeshNode.globalStep o.
Proof.
  intros H Hstep Hv Heq accepted.
  pose proof (lookup_lt_Some _ _ _ H) as Hlt.
  assert (Hne : Number.strict_ne expected (patternValue m) = false)
    by (unfold Number.strict_ne; now rewrite Heq).
  assert (Hgt : (globalStep m >? MeshNode.globalStep o) = false)
    by (rewrite Z.gtb_ltb; apply Z.ltb_ge; lia).
  rewrite (MeshNode_receive_spec this m o w H), Hv. cbn zeta.
  rewrite Hne, Hgt.
  eexists _, _. split; [reflexivity|]. cbn [trace heap].
  split; [reflexivity|].
  split; [now apply list_lookup_insert_eq|]. split; [reflexivity|].
  erewrite MeshNode_receive_spec by (cbn [heap]; now apply list_lookup_insert_eq).
  cbn [MeshNode.set_pattern MeshNode.pattern MeshNode.globalStep
       MeshNode.eventEmitter].
  cbn [stack]. rewrite (computeValue_again _ (stack w) _ _ _ _ Hv).
  cbn zeta. rewrite Hne, Hgt.
  eexists _, _. split; [reflexivity|]. cbn [trace heap].
  split; [reflexivity|].
  split; [apply list_lookup_insert_eq; now rewrite length_insert | reflexivity].
Qed.

Lemma C8_witness :
  let m := {| senderId := "p"; globalStep := 2; patternValue := Num 1;
              data := "{}" |} in
  exists w' o',
    MeshNode_receive 1 m three_nodes_at_5 = (Returned tt, w')
    /\ trace w' = trace three_nodes_at_5
                  ++ [Received 1 m; Emitted 1 "message" (OfMessage m);
                      Invoked 10 (OfMessage m)]
    /\ heap w' !! 1%nat = Some o' /\ MeshNode.globalStep o' = 5.
Proof.
  intros m.
  edestruct C8_stale_replay_accepted
    with (w := three_nodes_at_5) (this := 1%nat) (m := m)
    as (w' & o' & Hr & Ht & Ho & Hs & _);
    [reflexivity | cbn; lia | vm_compute; reflexivity | reflexivity |].
  exists w', o'. rewrite Hr, Ht. repeat split; assumption.
Defined.

(** * The fan-out of the network *)

















(** ** The registry as the network keeps it *)

Lemma distinct_notin (k : string) (keys : list string) :
  existsb (String.eqb k) keys = false -> ~ In k keys.
Proof.
  intros H Hin. assert (existsb (String.eqb k) keys = true); [|congruence].
  apply existsb_exists. exists k. split; [exact Hin | apply String.eqb_refl].
Qed.

Lemma Map_get_In (k : string) (r : ref) (l : list (string * ref)) :
  Map_get k l = Some r -> In (k, r) l.
Proof.
  induction l as [|[k' r'] l IH]; cbn [Map_get]; [discriminate|].
  destruct (String.eqb_spec k' k) as [->|_].
  - intros [= ->]. now left.
  - intros H. right. now apply IH.
Qed.


Lemma In_Map_delete (id k : string) (r : ref) (l : list (string * ref)) :
  distinct (map fst l) = true ->
  In (k, r) (Map_delete id l) <-> In (k, r) l /\ k <> id.
Proof.
  induction l as [|[k' r'] l IH]; cbn [Map_delete map fst distinct];
    [intuition|].
  intros [Hk Hd]%andb_prop. apply negb_true_iff, distinct_notin in Hk.
  destruct (String.eqb_spec k' id) as [->|Hne].
  - split.
    + intros Hin. split; [now right|]. intros ->. apply Hk.
      apply in_map_iff. now exists (id, r).
    + intros [[[= -> ->]|Hin] Hneq]; [contradiction | exact Hin].
  - cbn [In]. rewrite (IH Hd). split.
    + intros [[= -> ->]|[Hin Hneq]]; [split; [now left | exact Hne]|].
      split; [now right | exact Hneq].
    + intros [[Heq|Hin] Hneq]; [now left | right; now split].
Qed.









(** * Construction *)


Lemma createNode_spec (config : NodeConfig) (w : World) :
  MeshNetwork_createNode config w
  = (Returned (length (heap w)),
     {| stack := stack w; heap := heap w ++ [created config (length (heap w))];
        nodes := Map_set (nodeId config) (length (heap w)) (nodes w);
        trace := trace w |}).
Proof.
  unfold MeshNetwork_createNode.
  erewrite bind_returned by reflexivity.
  assert (Hnew : (heap w ++ [MeshNode_new config]) !! length (heap w)
                 = Some (MeshNode_new config)).
  { rewrite lookup_app_r by lia. now rewrite Nat.sub_diag. }
  erewrite bind_returned; cycle 1.
  { unfold MeshNode_onBroadcast, update_emitter.
    erewrite bind_returned by (apply deref_some; exact Hnew). reflexivity. }
  erewrite bind_returned by reflexivity.
  cbn [mret M_ret stack heap nodes trace]. unfold created. cbn [app].
  replace (length (heap w)) with (length (heap w) + 0)%nat at 2 by lia.
  rewrite insert_app_r. reflexivity.
Qed.

(** C2: at a configuration the repository's own validator rejects
    (reset interval 0, empty [nodeId]) [createNode] raises no configuration
    error: it constructs the node and registers it, with the interval 0
    stored as given, for no constructor calls [validateNodeConfig]; the
    failure shows only when the node is used, as the engine's RangeError. *)
Lemma C2_invalid_config_is_constructed :
  validateNodeConfig invalid_config = false
  /\ fst (MeshNetwork_createNode invalid_config (MeshNetwork_new 16))
     = Returned 0%nat
  /\ MeshNetwork_getNode ""
       (snd (MeshNetwork_createNode invalid_config (MeshNetwork_new 16)))
     = Some 0%nat
  /\ PatternGenerator.phaseResetInterval (PatternGenerator.new 7 0) = 0
  /\ fst (MeshNode_broadcast 0 "{}"
            (snd (MeshNetwork_createNode invalid_config (MeshNetwork_new 16))))
     = Threw RangeError.
Proof. repeat split; vm_compute; reflexivity. Qed.

(** * The fan-out at concrete networks *)





(** * Two fresh nodes *)






(** * The observer's statistics *)

Lemma getStatistics_total (this : MeshObserver.t) :
  MeshObserver.totalObserved (MeshObserver.getStatistics this)
  = (MeshObserver.validMessages (MeshObserver.getStatistics this)
     + MeshObserver.anomalyCount (MeshObserver.getStatistics this))%nat.
Proof. reflexivity. Qed.

Lemma totalObserved_new (config : PatternConfig) :
  MeshObserver.totalObserved (MeshObserver.getStatistics (MeshObserver.new config))
  = O.
Proof. reflexivity. Qed.

Lemma totalObserved_clearHistory (this : MeshObserver.t) :
  MeshObserver.totalObserved
    (MeshObserver.getStatistics (MeshObserver.clearHistory this)) = O.
Proof. reflexivity. Qed.

(** C1, as stated, fails: a freshly constructed observer has observed
    nothing, and [getStatistics] reports the success rate 0, not 100. *)
Lemma C1_fresh_observer_rate_not_100 :
  let this := MeshObserver.new {| seed := 7; phaseResetInterval := 100 |} in
  MeshObserver.totalObserved (MeshObserver.getStatistics this) = O
  /\ MeshObserver.successRate (MeshObserver.getStatistics this) <> 100%float.
Proof.
  split; [reflexivity|].
  intros H. apply (f_equal (fun x => PrimFloat.eqb x 100)) in H.
  vm_compute in H. discriminate H.
Qed.

(** C1, amended: for every observer, [getStatistics] returns
    [successRate = 0] when [totalObserved = 0]; that is the case right
    after construction and right after [clearHistory]. *)
Theorem C1_successRate_zero_when_nothing_observed (this : MeshObserver.t) :
  MeshObserver.totalObserved (MeshObserver.getStatistics this) = O ->
  MeshObserver.successRate (MeshObserver.getStatistics this) = 0%float
  /\ (forall config,
        MeshObserver.successRate
          (MeshObserver.getStatistics (MeshObserver.new config)) = 0%float)
  /\ MeshObserver.successRate
       (MeshObserver.getStatistics (MeshObserver.clearHistory this)) = 0%float.
Proof.
  intros Htotal. split; [|split; [reflexivity | reflexivity]].
  unfold MeshObserver.getStatistics in *. cbn in *.
  destruct (length (MeshObserver.observedMessages this)
            + length (MeshObserver.anomalies this))%nat;
    [reflexivity | discriminate].
Qed.

Lemma C1_witness :
  let this :=
    MeshObserver.clearHistory
      (snd (MeshObserver.observe 16 0
              {| senderId := "node1"; globalStep := 0;
                 patternValue := Num 7; data := "{}" |}
              (MeshObserver.new {| seed := 7; phaseResetInterval := 100 |}))) in
  MeshObserver.totalObserved (MeshObserver.getStatistics this) = O
  /\ MeshObserver.successRate (MeshObserver.getStatistics this) = 0%float.
Proof.
  cbv zeta. split; [reflexivity|].
  refine (proj1 (C1_successRate_zero_when_nothing_observed _ _)). reflexivity.
Defined.

(** * The registry stays orderly

    [network_ok] holds of the new network and is kept by every method, so
    it holds in every state the program reaches. *)

Lemma existsb_eqb_In (k : string) (keys : list string) :
  existsb (String.eqb k) keys = true <-> In k keys.
Proof.
  rewrite existsb_exists. split.
  - intros (x & Hin & ->%String.eqb_eq). exact Hin.
  - intros Hin. exists k. split; [exact Hin | apply String.eqb_refl].
Qed.

Lemma distinct_cons (k : string) (keys : list string) :
  distinct (k :: keys) = true <-> ~ In k keys /\ distinct keys = true.
Proof.
  cbn [distinct]. rewrite andb_true_iff, negb_true_iff.
  rewrite <- existsb_eqb_In, Bool.not_true_iff_false. reflexivity.
Qed.

Lemma keys_Map_set (x k : string) (v : ref) (l : list (string * ref)) :
  In x (map fst (Map_set k v l)) -> x = k \/ In x (map fst l).
Proof.
  induction l as [|[k' v'] l IH]; cbn [Map_set map fst In].
  - intros [<-|[]]. now left.
  - destruct (String.eqb_spec k' k) as [->|_]; cbn [map fst In].
    + intros [<-|Hin]; [now left | right; now right].
    + intros [<-|Hin]; [right; now left|].
      destruct (IH Hin) as [->|Hin']; [now left | right; now right].
Qed.

Lemma distinct_Map_set (k : string) (v : ref) (l : list (string * ref)) :
  distinct (map fst l) = true -> distinct (map fst (Map_set k v l)) = true.
Proof.
  induction l as [|[k' v'] l IH]; cbn [Map_set map fst]; [reflexivity|].
  intros [Hnotin Hd]%distinct_cons.
  destruct (String.eqb_spec k' k) as [->|Hne]; cbn [map fst];
    apply distinct_cons.
  - now split.
  - split; [|now apply IH].
    intros [->|Hin]%keys_Map_set; [now apply Hne | now apply Hnotin].
Qed.

Lemma In_Map_set (k k' : string) (v r : ref) (l : list (string * ref)) :
  In (k', r) (Map_set k v l) -> (k', r) = (k, v) \/ In (k', r) l.
Proof.
  induction l as [|[k1 v1] l IH]; cbn [Map_set In].
  - intros [<-|[]]. now left.
  - destruct (String.eqb k1 k); cbn [In].
    + intros [<-|Hin]; [now left | right; now right].
    + intros [<-|Hin]; [right; now left|].
      destruct (IH Hin) as [->|Hin']; [now left | right; now right].
Qed.

Lemma keys_Map_delete (x k : string) (l : list (string * ref)) :
  In x (map fst (Map_delete k l)) -> In x (map fst l).
Proof.
  induction l as [|[k' v'] l IH]; cbn [Map_delete map fst In]; [easy|].
  destruct (String.eqb k' k); cbn [map fst In]; [now right|].
  intros [<-|Hin]; [now left | right; now apply IH].
Qed.

Lemma distinct_Map_delete (k : string) (l : list (string * ref)) :
  distinct (map fst l) = true -> distinct (map fst (Map_delete k l)) = true.
Proof.
  induction l as [|[k' v'] l IH]; cbn [Map_delete map fst]; [reflexivity|].
  intros [Hnotin Hd]%distinct_cons.
  destruct (String.eqb k' k); [exact Hd|]. cbn [map fst].
  apply distinct_cons. split; [|now apply IH].
  intros Hin%keys_Map_delete. now apply Hnotin.
Qed.

Lemma network_ok_iff (w : World) :
  network_ok w = true
  <-> (forall k r, In (k, r) (nodes w) -> entry_ok w (k, r) = true)
      /\ distinct (map fst (nodes w)) = true.
Proof.
  unfold network_ok. rewrite andb_true_iff, forallb_forall. split.
  - intros [Hall Hd]. split; [|exact Hd]. intros k r. apply Hall.
  - intros [Hall Hd]. split; [|exact Hd]. intros [k r]. apply Hall.
Qed.

Lemma network_ok_new (stack : nat) : network_ok (MeshNetwork_new stack) = true.
Proof. reflexivity. Qed.

Lemma network_ok_createNode (config : NodeConfig) (w : World) :
  network_ok w = true ->
  network_ok (snd (MeshNetwork_createNode config w)) = true.
Proof.
  rewrite !network_ok_iff, createNode_spec. cbn [snd nodes stack heap].
  intros [Hall Hd]. split; [|now apply distinct_Map_set].
  intros k r [[= -> ->]|Hin]%In_Map_set; unfold entry_ok; cbn [fst snd stack heap].
  - rewrite lookup_app_r, Nat.sub_diag by lia. cbn.
    now rewrite String.eqb_refl.
  - specialize (Hall k r Hin). unfold entry_ok in Hall. cbn [fst snd] in Hall.
    destruct (heap w !! r) as [o|] eqn:E; [|discriminate].
    now rewrite (lookup_app_l_Some _ _ _ _ E).
Qed.

Lemma network_ok_removeNode (id : string) (w : World) :
  network_ok w = true ->
  network_ok (snd (MeshNetwork_removeNode id w)) = true.
Proof.
  rewrite !network_ok_iff. cbn [snd nodes MeshNetwork_removeNode update_nodes].
  intros [Hall Hd]. split; [|now apply distinct_Map_delete].
  intros k r Hin%(In_Map_delete _ _ _ _ Hd). now apply Hall.
Qed.

(** The methods of a node keep identities and listeners, hence the registry. *)
Lemma network_ok_le (w w' : World) :
  world_le w w' -> network_ok w = true -> network_ok w' = true.
Proof.
  intros (_ & Hn & _ & Hh). rewrite !network_ok_iff, Hn.
  intros [Hall Hd]. split; [|exact Hd].
  intros k r Hin. specialize (Hall k r Hin). unfold entry_ok in *.
  cbn [fst snd] in *. destruct (heap w !! r) as [o|] eqn:E; [|discriminate].
  destruct (Hh r o E) as (o' & -> & Hid & Hem & _). now rewrite Hid, Hem.
Qed.

Lemma network_ok_run (calls : list method_call) (w : World) :
  network_ok w = true -> network_ok (run calls w) = true.
Proof. apply network_ok_le, world_le_run. Qed.

Lemma all_live_le (w w' : World) (step : Z) :
  world_le w w' -> all_live w step = true -> all_live w' step = true.
Proof.
  intros (Hst & Hn & _ & Hh). unfold all_live. rewrite Hn, !forallb_forall.
  intros Hall [k r] Hin. specialize (Hall _ Hin). unfold entry_live in *.
  cbn [snd] in *. destruct (heap w !! r) as [o|] eqn:E; [|discriminate].
  destruct (Hh r o E) as (o' & -> & _ & _ & _ & Hi & _). now rewrite Hi, Hst.
Qed.

Lemma network_ok_update_emitter (this : ref) (f : EventEmitter -> EventEmitter)
  (w : World) :
  (forall e, count_routes (on_broadcast (f e)) = count_routes (on_broadcast e)) ->
  network_ok w = true ->
  network_ok (snd (update_emitter this f w)) = true.
Proof.
  intros Hf. unfold update_emitter.
  destruct (heap w !! this) as [o|] eqn:Ho.
  - erewrite bind_returned by (apply deref_some; exact Ho).
    cbn [snd assign]. rewrite !network_ok_iff. cbn [nodes stack heap].
    intros [Hall Hd]. split; [|exact Hd].
    intros k r Hin. specialize (Hall k r Hin). unfold entry_ok in *.
    cbn [fst snd stack heap] in *. destruct (decide (this = r)) as [<-|Hne].
    + rewrite list_lookup_insert_eq by (now apply lookup_lt_Some in Ho).
      rewrite Ho in Hall. cbn. now rewrite Hf.
    + now rewrite list_lookup_insert_ne.
  - erewrite bind_threw by (apply deref_none; exact Ho). trivial.
Qed.

Lemma count_routes_callback (ls : list listener) (id : nat) :
  count_routes (ls ++ [Callback id]) = count_routes ls.
Proof.
  unfold count_routes. rewrite List.filter_app, length_app. cbn. lia.
Qed.

(** Registering a function of the caller keeps the registry orderly. *)
Lemma network_ok_listeners (this : ref) (id : nat) (w : World) :
  network_ok w = true ->
  network_ok (snd (MeshNode_onBroadcast this (Callback id) w)) = true
  /\ network_ok (snd (MeshNode_onMessage this id w)) = true
  /\ network_ok (snd (MeshNode_onError this id w)) = true
  /\ network_ok (snd (MeshNode_onSync this id w)) = true.
Proof.
  intros Hok. repeat split; apply network_ok_update_emitter; try exact Hok;
    intros e; cbn [on_broadcast]; try reflexivity.
  apply count_routes_callback.
Qed.
(** * More on the pattern generator *)

(** A call keeps every value the cache held. *)
Lemma computeValue_rec_keeps (depth : nat) :
  forall (g g' : PatternGenerator.t) (step : Z) (v : number) (k : Z) (x : number),
    PatternGenerator.computeValue_rec depth g step = Some (v, g') ->
    PatternGenerator.cache g !! k = Some x ->
    PatternGenerator.cache g' !! k = Some x.
Proof.
  induction depth as [|depth IH]; intros g g' step v k x;
    cbn [PatternGenerator.computeValue_rec];
    destruct (PatternGenerator.cache g !! step) eqn:Hc;
    try (intros [= _ <-]; trivial; fail);
    destruct (Number.strict_eq _ _);
    try (intros [= _ <-] Hk; cbn;
         rewrite lookup_insert_ne by congruence; exact Hk);
    try discriminate.
  cbn zeta.
  destruct (PatternGenerator.computeValue_rec depth g (Number.round (step - 1)))
    as [[pv g1]|] eqn:E; [|discriminate].
  intros [= _ <-] Hk. cbn.
  destruct (decide (step = k)) as [->|Hne].
  - pose proof (IH _ _ _ _ _ _ E Hk) as Hk1.
    assert (Hg : PatternGenerator.cache g !! k = None) by exact Hc.
    congruence.
  - rewrite lookup_insert_ne by congruence. exact (IH _ _ _ _ _ _ E Hk).
Qed.

Lemma computeValue_returned (stack : nat) (g : PatternGenerator.t) (step : Z)
  (v : number) :
  fst (PatternGenerator.computeValue stack g step) = Returned v ->
  PatternGenerator.computeValue stack g step
  = (Returned v, snd (PatternGenerator.computeValue stack g step)).
Proof.
  destruct (PatternGenerator.computeValue stack g step) as [c g'].
  cbn. now intros ->.
Qed.

Lemma constructed_yields (seed interval : Z) (g : PatternGenerator.t)
  (stack : nat) (step : Z) (v : number) :
  constructed seed interval g ->
  fst (PatternGenerator.computeValue stack g step) = Returned v ->
  yields seed interval step v.
Proof.
  intros Hg Hv. destruct (constructed_inv _ _ _ Hg) as (Hs & Hi & Hc & _).
  apply computeValue_returned in Hv.
  destruct (computeValue_sound _ _ _ _ _ Hv Hc) as [_ Hy].
  now rewrite Hs, Hi in Hy.
Qed.

Lemma constructed_value (seed interval : Z) (g : PatternGenerator.t)
  (stack : nat) (step : Z) :
  constructed seed interval g ->
  computable stack interval step = true ->
  fst (PatternGenerator.computeValue stack g step)
  = Returned (valueAt seed interval step).
Proof.
  intros Hg Hc. destruct (constructed_inv _ _ _ Hg) as (Hs & Hint & Hcs & _).
  destruct (computeValue_spec stack g step) as (v & g' & -> & _ & _ & Hv);
    [now rewrite Hint|].
  destruct (Hv Hcs) as [_ ->]. now rewrite Hs, Hint.
Qed.

(** X1: the cache is invisible in the values: two generators constructed
    with the same seed and interval never return different values for a
    step, whatever was computed or cleared before on either and whatever
    room the stack has at either call; and at a step whose value both can
    compute from nothing (non-zero interval, exact descent, boundary within
    the room of the stack) both return.  Whether a call returns at all
    beyond that depends on how far its cache reaches. *)
Theorem X1_computeValue_history_independent
  (seed interval : Z) (g1 g2 : PatternGenerator.t) (stack1 stack2 : nat)
  (step : Z) :
  constructed seed interval g1 -> constructed seed interval g2 ->
  (forall v1 v2,
      fst (PatternGenerator.computeValue stack1 g1 step) = Returned v1 ->
      fst (PatternGenerator.computeValue stack2 g2 step) = Returned v2 ->
      v1 = v2)
  /\ (computable stack1 interval step = true ->
      computable stack2 interval step = true ->
      exists v,
        fst (PatternGenerator.computeValue stack1 g1 step) = Returned v
        /\ fst (PatternGenerator.computeValue stack2 g2 step) = Returned v).
Proof.
  intros H1 H2. split.
  - intros v1 v2 Hv1 Hv2.
    apply (yields_fun seed interval step);
      [exact (constructed_yields _ _ _ _ _ _ H1 Hv1)
      | exact (constructed_yields _ _ _ _ _ _ H2 Hv2)].
  - intros Hc1 Hc2. exists (valueAt seed interval step).
    split; now apply constructed_value.
Qed.

Lemma X1_witness :
  exists v,
    fst (PatternGenerator.computeValue 8
           (snd (PatternGenerator.computeValue 60
                   (PatternGenerator.new 7 100) 50)) 3)
    = Returned v
    /\ fst (PatternGenerator.computeValue 4
              (PatternGenerator.clearCache
                 (snd (PatternGenerator.computeValue 4
                         (PatternGenerator.new 7 100) 3)))
              3)
       = Returned v.
Proof.
  apply (X1_computeValue_history_independent 7 100).
  - apply constructed_computeValue, constructed_new.
  - apply constructed_clearCache, constructed_computeValue, constructed_new.
  - reflexivity.
  - reflexivity.
Defined.

(** X2: the memoised [computeValue] obeys the recursion of the source for
    every seed and every non-zero interval: at a step with
    [step % interval === 0] it returns the seed, whatever the cache holds
    and whatever room the stack has; at any other step whose descent to the
    phase boundary is exact and within the room of the stack, the call for
    the step before returns too and the value is the digit collapse of that
    value times the seed, in double arithmetic. *)
Theorem X2_computeValue_recurrence
  (seed interval : Z) (g : PatternGenerator.t) (stack : nat) (step : Z) :
  interval <> 0 -> constructed seed interval g ->
  (Z.rem step interval = 0 ->
   fst (PatternGenerator.computeValue stack g step) = Returned (Num seed))
  /\ (Z.rem step interval <> 0 ->
      computable stack interval step = true ->
      exists previousValue,
        fst (PatternGenerator.computeValue stack g (step - 1))
        = Returned previousValue
        /\ fst (PatternGenerator.computeValue stack g step)
           = Returned (collapseDigits (Number.mul previousValue (Num seed)))).
Proof.
  intros Hi Hg.
  pose proof (boundary_test step interval Hi) as Hb.
  assert (Hrem : Number.strict_eq (Number.rem (Num step) (Num interval)) (Num 0)
                 = (Z.rem step interval =? 0)).
  { unfold Number.rem, Number.strict_eq.
    destruct (Z.eqb_spec interval 0) as [|_]; [contradiction|]. reflexivity. }
  destruct (constructed_inv _ _ _ Hg) as (Hs & Hint & Hc & _). split.
  - intros Hz. rewrite Hz in Hrem. change (0 =? 0) with true in Hrem.
    unfold PatternGenerator.computeValue.
    destruct stack as [|stack]; cbn [PatternGenerator.computeValue_rec];
      (destruct (PatternGenerator.cache g !! step) as [x|] eqn:Hx;
       [cbn; f_equal; apply (yields_fun seed interval step);
        [rewrite <- Hs, <- Hint; now apply Hc
        | now apply yields_boundary]
       | rewrite Hint, Hrem, Hs; reflexivity]).
  - intros Hnz Hcomp. apply Z.eqb_neq in Hnz. rewrite Hnz in Hrem.
    rewrite Hrem in Hb. symmetry in Hb. apply Z.eqb_neq in Hb.
    destruct (computable_inv _ _ _ Hcomp) as (_ & He & Hd).
    destruct (exact_descent_pred _ _ Hi Hb He) as (_ & He' & Hd').
    exists (valueAt seed interval (step - 1)). split.
    + apply constructed_value; [exact Hg|].
      destruct (exact_descent_inv _ _ He') as [Hlo Hhi].
      apply computable_intro; try assumption. lia.
    + rewrite (constructed_value seed interval g) by assumption.
      now rewrite valueAt_next.
Qed.

Lemma X2_witness :
  fst (PatternGenerator.computeValue 0 (PatternGenerator.new 7 100) 300)
  = Returned (Num 7).
Proof.
  apply (X2_computeValue_recurrence 7 100);
    [lia | apply constructed_new | reflexivity].
Defined.

Lemma computable_opp (stack : nat) (interval step : Z) :
  computable stack (- interval) step = computable stack interval step.
Proof.
  unfold computable, exact_descent, depth. rewrite Z.abs_opp.
  f_equal. f_equal. f_equal.
  destruct (Z.eqb_spec (- interval) 0), (Z.eqb_spec interval 0); lia.
Qed.

(** X3: the values repeat with the interval, and a negative interval acts as
    its absolute value: for every [k], where both steps can be computed
    (exact descent within the room of the stack),
    [computeValue(step + k * interval) = computeValue(step)], also between a
    generator with interval [i] and one with interval [-i]. *)
Theorem X3_computeValue_periodic
  (seed interval : Z) (g g' : PatternGenerator.t) (stack stack' : nat)
  (step k : Z) :
  constructed seed interval g ->
  constructed seed interval g' \/ constructed seed (- interval) g' ->
  computable stack interval step = true ->
  computable stack' interval (step + k * interval) = true ->
  fst (PatternGenerator.computeValue stack' g' (step + k * interval))
  = fst (PatternGenerator.computeValue stack g step).
Proof.
  intros Hg Hg' Hc Hc'.
  destruct (computable_inv _ _ _ Hc) as (Hi & _ & _).
  rewrite (constructed_value seed interval g) by assumption.
  assert (E : valueAt seed interval (step + k * interval)
              = valueAt seed interval step).
  { unfold valueAt. f_equal. f_equal.
    destruct (Z.abs_spec interval) as [[_ ->]|[_ ->]].
    - apply Z_mod_plus_full.
    - replace (step + k * interval) with (step + (- k) * (- interval)) by lia.
      apply Z_mod_plus_full. }
  destruct Hg' as [Hg'|Hg'].
  - rewrite (constructed_value seed interval g') by assumption. now rewrite E.
  - rewrite (constructed_value seed (- interval) g')
      by (assumption || now rewrite computable_opp).
    rewrite <- E. unfold valueAt. now rewrite Z.abs_opp.
Qed.

Lemma X3_witness :
  fst (PatternGenerator.computeValue 2 (PatternGenerator.new 7 (-3)) (2 + 5 * 3))
  = fst (PatternGenerator.computeValue 2 (PatternGenerator.new 7 3) 2).
Proof.
  apply (X3_computeValue_periodic 7 3);
    [apply constructed_new | right; apply constructed_new
    | reflexivity | reflexivity].
Defined.

(** X4: a returning call only adds to the cache: every value cached before
    is still cached, the value of the step is cached now, and asking for the
    step again returns the same value and changes nothing, whatever room the
    stack has then. *)
Theorem X4_computeValue_caches
  (stack : nat) (g g' : PatternGenerator.t) (step : Z) (v : number) :
  PatternGenerator.computeValue stack g step = (Returned v, g') ->
  (forall k x, PatternGenerator.cache g !! k = Some x ->
               PatternGenerator.cache g' !! k = Some x)
  /\ PatternGenerator.cache g' !! step = Some v
  /\ forall stack',
      PatternGenerator.computeValue stack' g' step = (Returned v, g').
Proof.
  intros H.
  pose proof (fun stack' => computeValue_again stack stack' g g' step v H)
    as Hagain.
  unfold PatternGenerator.computeValue in H.
  destruct (PatternGenerator.computeValue_rec _ g step) as [[v0 g0]|] eqn:E;
    [|discriminate]. injection H as -> ->.
  split; [|split; [|exact Hagain]].
  - intros k x. now apply (computeValue_rec_keeps _ _ _ _ _ _ _ E).
  - now apply computeValue_rec_cached in E.
Qed.

Lemma X4_witness :
  exists g',
    PatternGenerator.computeValue 8 (PatternGenerator.new 7 100) 2
    = (Returned (Num 1), g')
    /\ PatternGenerator.cache g' !! 2 = Some (Num 1)
    /\ PatternGenerator.computeValue 0 g' 2 = (Returned (Num 1), g').
Proof.
  eexists. split; [vm_compute; reflexivity|].
  edestruct (X4_computeValue_caches 8 (PatternGenerator.new 7 100)) with
    (step := 2) (v := Num 1) as (_ & Hc & Hagain); [vm_compute; reflexivity|].
  split; [exact Hc | exact (Hagain 0%nat)].
Defined.

(** X5: with [phaseResetInterval = 0] no call of [computeValue] ever
    returns: whatever the step, whatever room the stack has and whatever was
    tried before, it throws the RangeError and the cache stays empty. *)
Theorem X5_interval_zero_always_throws
  (seed : Z) (g : PatternGenerator.t) (stack : nat) (step : Z) :
  constructed seed 0 g ->
  PatternGenerator.computeValue stack g step = (Threw RangeError, g)
  /\ PatternGenerator.cache g = ∅.
Proof.
  intros Hg. destruct (constructed_inv _ _ _ Hg) as (_ & Hi & _ & Hz).
  split; [apply computeValue_interval_zero|]; auto.
Qed.

Lemma X5_witness :
  PatternGenerator.computeValue 8
    (snd (PatternGenerator.computeValue 8 (PatternGenerator.new 7 0) 4)) 0
  = (Threw RangeError,
     snd (PatternGenerator.computeValue 8 (PatternGenerator.new 7 0) 4)).
Proof.
  apply (X5_interval_zero_always_throws 7).
  apply constructed_computeValue, constructed_new.
Defined.

Lemma collapseDigits_at_most_9 (num : number) :
  Number.gt (collapseDigits num) (Num 9) = false.
Proof.
  assert (Hroot : forall n, 1 <= n <= 2 ^ 53 ->
                    Number.gt (collapseDigits (Num n)) (Num 9) = false).
  { intros n Hn. rewrite collapseDigits_root by lia. cbn [Number.gt].
    pose proof (Z.mod_pos_bound (n - 1) 9).
    rewrite Z.gtb_ltb. apply Z.ltb_ge. lia. }
  destruct num as [n| |s].
  - destruct (Z.lt_trichotomy n 0) as [Hn|[->|Hn]].
    + now rewrite collapseDigits_negative.
    + reflexivity.
    + destruct (Z_le_gt_dec n (2 ^ 53)) as [Hle|Hgt]; [apply Hroot; lia|].
      rewrite collapseDigits_eqn. cbn zeta.
      destruct (digitSum_large n) as [->|(s & -> & Hs)]; [lia|reflexivity|].
      destruct (Number.gt (Num s) (Num 9)) eqn:E; [|exact E].
      apply Hroot. cbn [Number.gt] in E. lia.
  - reflexivity.
  - now rewrite collapseDigits_Infinity.
Qed.

(** X6: [collapseDigits] at the edges and its range: a negative number and
    NaN collapse to NaN (the sign is no digit), 0 collapses to 0, and no
    result ever exceeds 9. *)
Theorem X6_collapseDigits_edges (num : number) :
  Number.gt (collapseDigits num) (Num 9) = false
  /\ (forall n, n < 0 -> collapseDigits (Num n) = NaN)
  /\ collapseDigits (Num 0) = Num 0
  /\ collapseDigits NaN = NaN.
Proof.
  split; [apply collapseDigits_at_most_9|].
  split; [exact collapseDigits_negative | split; reflexivity].
Qed.

Lemma X6_witness :
  collapseDigits (Num (-28)) = NaN
  /\ Number.gt (collapseDigits (Num 999999999999)) (Num 9) = false.
Proof.
  destruct (X6_collapseDigits_edges (Num 999999999999)) as (Hle & Hneg & _).
  split; [apply Hneg; lia | exact Hle].
Defined.

Lemma iter_negative_seed (seed : Z) (n : nat) :
  - 94906265 <= seed < 0 -> (2 <= n)%nat ->
  Nat.iter n (fun previousValue =>
                collapseDigits (Number.mul previousValue (Num seed)))
           (Num seed)
  = NaN.
Proof.
  intros Hs Hn. induction n as [|n IH]; [lia|].
  rewrite Nat.iter_succ. destruct (Nat.eq_dec n 1%nat) as [->|Hne].
  - cbn [Nat.iter nat_rect].
    rewrite (mul_exact seed seed) by nia.
    rewrite (collapseDigits_root (seed * seed)) by nia.
    pose proof (Z.mod_pos_bound (seed * seed - 1) 9).
    rewrite mul_exact by nia.
    apply collapseDigits_negative. nia.
  - rewrite IH by lia. reflexivity.
Qed.

(** X7: with a negative seed whose square the doubles hold exactly, the
    generator yields NaN from the second step after every phase boundary
    on, wherever the step can be computed: the product of a digit and the
    seed is negative, its sign parses to NaN, and NaN stays. *)
Theorem X7_negative_seed_yields_NaN
  (seed interval : Z) (g : PatternGenerator.t) (stack : nat) (step : Z) :
  - 94906265 <= seed < 0 -> constructed seed interval g ->
  computable stack interval step = true ->
  2 <= step mod Z.abs interval ->
  fst (PatternGenerator.computeValue stack g step) = Returned NaN.
Proof.
  intros Hs Hg Hc Hoff.
  rewrite (constructed_value seed interval g) by assumption.
  unfold valueAt. rewrite iter_negative_seed by lia. reflexivity.
Qed.

Lemma X7_witness :
  fst (PatternGenerator.computeValue 4 (PatternGenerator.new (-7) 100) 102)
  = Returned NaN.
Proof.
  apply (X7_negative_seed_yields_NaN (-7) 100);
    [lia | apply constructed_new | reflexivity | reflexivity].
Defined.

(** X8: a configuration that [validateNodeConfig] accepts makes the
    generator return wherever the doubles and the stack allow: with an
    interval above 0, every [computeValue] call for a step between
    [-2^53 + interval] and [2^53] whose distance to the phase boundary below
    it is within the room of the stack returns, for every seed and every
    cache state reached from the constructor. *)
Theorem X8_validated_config_never_throws
  (config : NodeConfig) (g : PatternGenerator.t) (stack : nat) (step : Z) :
  validateNodeConfig config = true ->
  constructed (seed config) (phaseResetInterval config) g ->
  - 2 ^ 53 + phaseResetInterval config <= step <= 2 ^ 53 ->
  (depth (phaseResetInterval config) step <= stack)%nat ->
  exists value,
    fst (PatternGenerator.computeValue stack g step) = Returned value.
Proof.
  unfold validateNodeConfig. intros Hv%Z.gtb_lt Hg Hstep Hd.
  eexists.
  apply (constructed_value (seed config) (phaseResetInterval config));
    [exact Hg|].
  apply computable_intro; try lia.
  pose proof (Z.mod_pos_bound step (Z.abs (phaseResetInterval config))). lia.
Qed.

Lemma X8_witness :
  exists value,
    fst (PatternGenerator.computeValue 100
           (MeshNode.pattern (MeshNode_new node_a)) (-17)) = Returned value.
Proof.
  apply (X8_validated_config_never_throws node_a);
    [reflexivity | apply constructed_new | vm_compute; split; discriminate
    | vm_compute; lia].
Defined.
(** * More on the node *)








Lemma computeValue_threw (stack : nat) (g g' : PatternGenerator.t) (step : Z)
  (e : exn) :
  PatternGenerator.computeValue stack g step = (Threw e, g') -> g' = g.
Proof.
  unfold PatternGenerator.computeValue.
  destruct (PatternGenerator.computeValue_rec _ g step) as [[v g0]|];
    [discriminate | now intros [= _ <-]].
Qed.

(** X11: when the node's generator throws (its interval is 0, or the
    recursion exhausts the stack), [receive] and [broadcast] throw the same exception before any event is emitted and
    leave every object as it was: a broadcast that fails does not consume a
    step. *)
Theorem X11_failing_generator_emits_nothing
  (w : World) (this : ref) (o : MeshNode.t) (m : Message) (data : any)
  (e : exn) :
  heap w !! this = Some o ->
  (fst (PatternGenerator.computeValue (stack w) (MeshNode.pattern o)
          (globalStep m))
   = Threw e ->
   fst (MeshNode_receive this m w) = Threw e
   /\ heap (snd (MeshNode_receive this m w)) = heap w
   /\ trace (snd (MeshNode_receive this m w)) = trace w ++ [Received this m])
  /\ (fst (PatternGenerator.computeValue (stack w) (MeshNode.pattern o)
             (MeshNode.globalStep o)) = Threw e ->
      fst (MeshNode_broadcast this data w) = Threw e
      /\ heap (snd (MeshNode_broadcast this data w)) = heap w
      /\ trace (snd (MeshNode_broadcast this data w)) = trace w).
Proof.
  intros Ho.
  assert (Hid : forall p, p = MeshNode.pattern o ->
                          <[this := MeshNode.set_pattern p o]> (heap w) = heap w).
  { intros p ->. apply list_insert_id. rewrite Ho. now destruct o. }
  split; intros Hthrow.
  - rewrite (MeshNode_receive_spec this m o w Ho).
    destruct (PatternGenerator.computeValue (stack w) (MeshNode.pattern o)
                (globalStep m))
      as [[v|e'] p'] eqn:E; cbn [fst] in Hthrow; [discriminate|].
    injection Hthrow as ->. cbn zeta. cbn [fst snd stack heap trace].
    rewrite (Hid p' (computeValue_threw _ _ _ _ _ E)). now repeat split.
  - unfold MeshNode_broadcast.
    erewrite bind_returned by (apply deref_some; exact Ho).
    destruct (PatternGenerator.computeValue (stack w) (MeshNode.pattern o)
                (MeshNode.globalStep o)) as [[v|e'] p'] eqn:E;
      cbn [fst] in Hthrow; [discriminate|].
    injection Hthrow as ->.
    erewrite bind_threw;
      [|rewrite (MeshNode_computeValue_spec this _ o w Ho), E; reflexivity].
    cbn [fst snd stack heap trace].
    rewrite (Hid p' (computeValue_threw _ _ _ _ _ E)). now repeat split.
Qed.

Lemma X11_witness :
  fst (MeshNode_broadcast 1 "{}" with_zero_interval) = Threw RangeError
  /\ heap (snd (MeshNode_broadcast 1 "{}" with_zero_interval))
     = heap with_zero_interval
  /\ trace (snd (MeshNode_broadcast 1 "{}" with_zero_interval))
     = trace with_zero_interval.
Proof.
  edestruct X11_failing_generator_emits_nothing
    with (w := with_zero_interval) (this := 1%nat) (data := "{}"%string)
         (m := outgoing (created node_z 1) NaN "{}") (e := RangeError)
    as (_ & Hb); [reflexivity|].
  apply Hb. reflexivity.
Defined.

Lemma sync_step (w : World) (this : ref) (o : MeshNode.t) (targetStep : Z) :
  heap w !! this = Some o ->
  exists o',
    heap (snd (MeshNode_sync this targetStep w)) !! this = Some o'
    /\ MeshNode.globalStep o' = Z.max (MeshNode.globalStep o) targetStep.
Proof.
  intros Ho. rewrite (MeshNode_sync_spec this targetStep o w Ho).
  destruct (targetStep >? MeshNode.globalStep o) eqn:Hgt; cbn [snd stack heap].
  - apply Z.gtb_lt in Hgt. eexists. split.
    + apply list_lookup_insert_eq. now apply lookup_lt_Some in Ho.
    + cbn. lia.
  - rewrite Z.gtb_ltb in Hgt. apply Z.ltb_ge in Hgt.
    exists o. split; [exact Ho | lia].
Qed.

(** X12: [sync] moves the step to the maximum of the step and the target
    and never back; two [sync] calls end at the same step in either order;
    and a target that is not ahead emits no event. *)
Theorem X12_sync_is_max
  (w : World) (this : ref) (o : MeshNode.t) (t1 t2 : Z) :
  heap w !! this = Some o ->
  let step_after calls := MeshNode.globalStep <$> heap (run calls w) !! this in
  step_after [Sync this t1] = Some (Z.max (MeshNode.globalStep o) t1)
  /\ step_after [Sync this t1; Sync this t2]
     = Some (Z.max (MeshNode.globalStep o) (Z.max t1 t2))
  /\ step_after [Sync this t2; Sync this t1]
     = step_after [Sync this t1; Sync this t2]
  /\ (t1 <= MeshNode.globalStep o ->
      MeshNode_sync this t1 w = (Returned tt, w)).
Proof.
  intros Ho step_after.
  assert (Htwo : forall a b,
             step_after [Sync this a; Sync this b]
             = Some (Z.max (MeshNode.globalStep o) (Z.max a b))).
  { intros a b. unfold step_after. cbn [run perform].
    destruct (sync_step w this o a Ho) as (o1 & Ho1 & Hs1).
    destruct (sync_step _ this o1 b Ho1) as (o2 & -> & Hs2).
    cbn. f_equal. lia. }
  split; [|split; [apply Htwo | split]].
  - unfold step_after. cbn [run perform].
    destruct (sync_step w this o t1 Ho) as (o1 & -> & Hs1). cbn. now f_equal.
  - rewrite !Htwo. f_equal. lia.
  - intros Hle. rewrite (MeshNode_sync_spec this t1 o w Ho).
    rewrite Z.gtb_ltb. apply Z.ltb_ge in Hle. now rewrite Hle.
Qed.

Lemma X12_witness :
  (MeshNode.globalStep <$> heap (run [Sync 1 9; Sync 1 4] three_nodes) !! 1%nat)
  = Some 9
  /\ MeshNode_sync 1 0 three_nodes = (Returned tt, three_nodes).
Proof.
  edestruct X12_sync_is_max
    with (w := three_nodes) (this := 1%nat) (t1 := 9) (t2 := 4)
    as (_ & Htwo & _); [reflexivity|].
  edestruct X12_sync_is_max
    with (w := three_nodes) (this := 1%nat) (t1 := 0) (t2 := 0)
    as (_ & _ & _ & Hnone); [reflexivity|].
  split; [exact Htwo | apply Hnone; cbn; lia].
Defined.

(** X13: a message whose pattern value is NaN is never accepted: whatever
    value the node's generator returns for the step, also NaN itself, the
    test [!==] holds, [receive] emits the [pattern-mismatch] error and the
    step stays. *)
Theorem X13_NaN_message_rejected
  (w : World) (this : ref) (o : MeshNode.t) (m : Message)
  (expected : number) (p' : PatternGenerator.t) :
  heap w !! this = Some o ->
  PatternGenerator.computeValue (stack w) (MeshNode.pattern o) (globalStep m)
  = (Returned expected, p') ->
  patternValue m = NaN ->
  MeshNode_receive this m w
  = (Returned tt,
     {| stack := stack w; heap := <[this := MeshNode.set_pattern p' o]> (heap w);
        nodes := nodes w;
        trace := trace w ++ Received this m
                   :: Emitted this "error" (OfError "pattern-mismatch" m expected)
                   :: map (fun id => Invoked id
                                       (OfError "pattern-mismatch" m expected))
                          (on_error (MeshNode.eventEmitter o)) |}).
Proof.
  intros Ho Hv HNaN. rewrite (MeshNode_receive_spec this m o w Ho), Hv.
  rewrite HNaN. cbn zeta. now destruct expected.
Qed.

Lemma X13_witness :
  let m := {| senderId := "p"; globalStep := 2; patternValue := NaN;
              data := "{}" |} in
  exists w',
    MeshNode_receive 1 m three_nodes = (Returned tt, w')
    /\ trace w' = trace three_nodes
                  ++ [Received 1 m;
                      Emitted 1 "error" (OfError "pattern-mismatch" m (Num 1));
                      Invoked 11 (OfError "pattern-mismatch" m (Num 1))].
Proof.
  intros m. eexists. split.
  - eapply (X13_NaN_message_rejected three_nodes 1);
      [reflexivity | vm_compute; reflexivity | reflexivity].
  - reflexivity.
Defined.




(** * More on the observer *)





(** X16: an observer constructed with interval 0 records nothing: every
    [observe] throws the RangeError of its generator, both logs and the
    statistics stay as they were, and no listener is called. *)
Theorem X16_observer_interval_zero
  (stack : nat) (s : Z) (now : Z) (m : Message) (this : MeshObserver.t) :
  constructed s 0 (MeshObserver.pattern this) ->
  let this' := snd (MeshObserver.observe stack now m this) in
  fst (MeshObserver.observe stack now m this) = Threw RangeError
  /\ MeshObserver.observedMessages this' = MeshObserver.observedMessages this
  /\ MeshObserver.anomalies this' = MeshObserver.anomalies this
  /\ MeshObserver.calls this' = MeshObserver.calls this
  /\ MeshObserver.getStatistics this' = MeshObserver.getStatistics this
  /\ constructed s 0 (MeshObserver.pattern this').
Proof.
  intros Hg. destruct (constructed_inv _ _ _ Hg) as (_ & Hi & _ & Hz).
  cbn zeta. unfold MeshObserver.observe.
  rewrite computeValue_interval_zero by auto. now repeat split.
Qed.

Lemma X16_witness :
  let this := MeshObserver.new {| seed := 7; phaseResetInterval := 0 |} in
  let m := {| senderId := "node1"; globalStep := 0; patternValue := Num 7;
              data := "{}" |} in
  fst (MeshObserver.observe 16 0 m this) = Threw RangeError
  /\ MeshObserver.totalObserved
       (MeshObserver.getStatistics (snd (MeshObserver.observe 16 0 m this))) = O.
Proof.
  intros this m.
  edestruct X16_observer_interval_zero
    with (stack := 16%nat) (s := 7) (now := 0) (m := m) (this := this)
    as (Hthrow & _ & _ & _ & Hstat & _); [apply constructed_new|].
  split; [exact Hthrow | now rewrite Hstat].
Defined.

(** * More on the network *)

Lemma Map_get_set_ne (k k' : string) (v : ref) (l : list (string * ref)) :
  k' <> k -> Map_get k' (Map_set k v l) = Map_get k' l.
Proof.
  intros Hne. induction l as [|[k1 v1] l IH]; cbn [Map_set Map_get].
  - apply String.eqb_neq in Hne. rewrite String.eqb_sym in Hne. now rewrite Hne.
  - destruct (String.eqb_spec k1 k) as [->|Hk]; cbn [Map_get].
    + apply String.eqb_neq in Hne. rewrite String.eqb_sym in Hne.
      now rewrite Hne.
    + now rewrite IH.
Qed.

Lemma Map_get_delete_ne (k k' : string) (l : list (string * ref)) :
  k' <> k -> Map_get k' (Map_delete k l) = Map_get k' l.
Proof.
  intros Hne. induction l as [|[k1 v1] l IH]; cbn [Map_delete Map_get];
    [reflexivity|].
  destruct (String.eqb_spec k1 k) as [->|Hk]; cbn [Map_get].
  - apply String.eqb_neq in Hne. rewrite String.eqb_sym in Hne.
    now rewrite Hne.
  - now rewrite IH.
Qed.

Lemma Map_get_delete_eq (k : string) (l : list (string * ref)) :
  distinct (map fst l) = true -> Map_get k (Map_delete k l) = None.
Proof.
  intros Hd. destruct (Map_get k (Map_delete k l)) as [r|] eqn:E; [|reflexivity].
  apply Map_get_In, (In_Map_delete _ _ _ _ Hd) in E. now destruct E.
Qed.

Lemma Map_delete_absent (k : string) (l : list (string * ref)) :
  Map_get k l = None -> Map_delete k l = l.
Proof.
  induction l as [|[k1 v1] l IH]; cbn [Map_delete Map_get]; [reflexivity|].
  destruct (String.eqb k1 k); [discriminate|]. intros H. now rewrite IH.
Qed.

(** X17: the registry behaves as a map: [createNode] and [removeNode] leave
    [getNode] of every other id as it was; after [removeNode(id)],
    [getNode(id)] is undefined; and [removeNode] of an id that is not
    registered changes nothing. *)
Theorem X17_getNode_laws (w : World) (id id' : string) (config : NodeConfig) :
  network_ok w = true ->
  (id' <> nodeId config ->
   MeshNetwork_getNode id' (snd (MeshNetwork_createNode config w))
   = MeshNetwork_getNode id' w)
  /\ MeshNetwork_getNode id (snd (MeshNetwork_removeNode id w)) = None
  /\ (id' <> id ->
      MeshNetwork_getNode id' (snd (MeshNetwork_removeNode id w))
      = MeshNetwork_getNode id' w)
  /\ (MeshNetwork_getNode id w = None ->
      nodes (snd (MeshNetwork_removeNode id w)) = nodes w).
Proof.
  intros [_ Hd]%andb_prop. unfold MeshNetwork_getNode.
  rewrite createNode_spec. cbn [snd nodes MeshNetwork_removeNode update_nodes].
  split; [|split; [|split]].
  - apply Map_get_set_ne.
  - now apply Map_get_delete_eq.
  - apply Map_get_delete_ne.
  - apply Map_delete_absent.
Qed.

Lemma X17_witness :
  MeshNetwork_getNode "node-b" (snd (MeshNetwork_removeNode "node-b" three_nodes))
  = None
  /\ MeshNetwork_getNode "node-c"
       (snd (MeshNetwork_removeNode "node-b" three_nodes)) = Some 2%nat
  /\ nodes (snd (MeshNetwork_removeNode "nobody" three_nodes)) = nodes three_nodes.
Proof.
  destruct (X17_getNode_laws three_nodes "node-b" "node-c" node_a)
    as (_ & Hgone & Hother & _); [reflexivity|].
  destruct (X17_getNode_laws three_nodes "nobody" "node-c" node_a)
    as (_ & _ & _ & Habsent); [reflexivity|].
  split; [exact Hgone|]. split.
  - rewrite Hother by discriminate. reflexivity.
  - apply Habsent. reflexivity.
Defined.

(** X18: the registry invariant: in the new network, and after every
    [createNode] (also with an id already taken), [removeNode], listener
    registration and node method call, the keys of the map are distinct and
    every entry refers to a node whose [nodeId] is its key and that carries
    exactly one routing closure. *)
Theorem X18_registry_invariant (w : World) :
  (forall stack, network_ok (MeshNetwork_new stack) = true)
  /\ (network_ok w = true ->
      (forall config, network_ok (snd (MeshNetwork_createNode config w)) = true)
      /\ (forall id, network_ok (snd (MeshNetwork_removeNode id w)) = true)
      /\ (forall calls, network_ok (run calls w) = true)
      /\ (forall this id,
             network_ok (snd (MeshNode_onBroadcast this (Callback id) w)) = true
             /\ network_ok (snd (MeshNode_onMessage this id w)) = true
             /\ network_ok (snd (MeshNode_onError this id w)) = true
             /\ network_ok (snd (MeshNode_onSync this id w)) = true)).
Proof.
  split; [reflexivity|]. intros Hok. split; [|split; [|split]].
  - intros config. now apply network_ok_createNode.
  - intros id. now apply network_ok_removeNode.
  - intros calls. now apply network_ok_run.
  - intros this id. now apply network_ok_listeners.
Qed.

Lemma X18_witness :
  network_ok
    (run [Broadcast 0 "{}"; Sync 2 7]
       (snd (MeshNetwork_createNode node_b
               (snd (MeshNetwork_removeNode "node-c" three_nodes))))) = true.
Proof.
  destruct (X18_registry_invariant three_nodes) as [_ H0].
  destruct (H0 eq_refl) as (_ & Hremove & _).
  destruct (X18_registry_invariant
              (snd (MeshNetwork_removeNode "node-c" three_nodes)))
    as [_ H1].
  destruct (H1 (Hremove _)) as (Hcreate & _).
  destruct (X18_registry_invariant
              (snd (MeshNetwork_createNode node_b
                      (snd (MeshNetwork_removeNode "node-c" three_nodes)))))
    as [_ H2].
  destruct (H2 (Hcreate _)) as (_ & _ & Hrun & _). apply Hrun.
Defined.






(** ** How a broadcast moves the steps *)










(** * utils/performance-monitor.ts: the timers *)

(** ** The class

    Times are the doubles [performance.now()] returns; the reading is an
    argument of the method that takes it.  The two maps are only ever read
    by key, so they are finite maps. *)
Module PerformanceMonitor.

(** A call that returns, or [throw new Error(message)]. *)
Inductive outcome (A : Type) : Type :=
| Ok (a : A)
| Error (message : string).
Arguments Ok {A} a.
Arguments Error {A} message.

Record t : Type := mk {
  metrics : gmap string (list float);
  timers : gmap string float
}.

Definition new : t := {| metrics := ∅; timers := ∅ |}.

(** [startTimer(name)] *)
Definition startTimer (now : float) (name : string) (this : t) : t :=
  {| metrics := metrics this; timers := <[name := now]> (timers this) |}.

(** [!startTime]: true of [undefined], of both zeros and of NaN. *)
Definition falsy (startTime : option float) : bool :=
  match startTime with
  | None => true
  | Some x => PrimFloat.eqb x 0 || PrimFloat.is_nan x
  end.

Definition not_started (name : string) : string :=
  "Timer '" ++ name ++ "' was not started".

(** [endTimer(name)] *)
Definition endTimer (now : float) (name : string) (this : t)
  : outcome float * t :=
  match timers this !! name with
  | Some startTime =>
      if falsy (Some startTime) then (Error (not_started name), this)
      else
        let duration := (now - startTime)%float in
        let values := match metrics this !! name with
                      | Some values => values
                      | None => []
                      end in
        (Ok duration,
         {| metrics := <[name := values ++ [duration]]> (metrics this);
            timers := delete name (timers this) |})
  | None => (Error (not_started name), this)
  end.

Record Metrics : Type := {
  count : nat;
  avg : float;
  min : float;
  max : float;
  total : float
}.

Definition is_zero (sign : float_class) (x : float) : bool :=
  match PrimFloat.classify x, sign with
  | FloatClass.PZero, FloatClass.PZero => true
  | FloatClass.NZero, FloatClass.NZero => true
  | _, _ => false
  end.

(** [Math.min(...values)] from the running [lowest]: NaN as soon as a value
    is NaN; -0 is below +0. *)
Fixpoint Math_min (lowest : float) (values : list float) : float :=
  match values with
  | [] => lowest
  | x :: values' =>
      if PrimFloat.is_nan x then PrimFloat.nan
      else if is_zero FloatClass.NZero x && is_zero FloatClass.PZero lowest
      then Math_min x values'
      else if PrimFloat.ltb x lowest then Math_min x values'
      else Math_min lowest values'
  end.

(** [Math.max(...values)] from the running [highest]. *)
Fixpoint Math_max (highest : float) (values : list float) : float :=
  match values with
  | [] => highest
  | x :: values' =>
      if PrimFloat.is_nan x then PrimFloat.nan
      else if is_zero FloatClass.PZero x && is_zero FloatClass.NZero highest
      then Math_max x values'
      else if PrimFloat.ltb highest x then Math_max x values'
      else Math_max highest values'
  end.

(** What [getMetrics] makes of the durations of one name. *)
Definition summarise (values : list float) : option Metrics :=
  match values with
  | [] => None
  | _ =>
      let total := fold_left PrimFloat.add values 0%float in
      Some {| count := length values;
              avg := (total / MeshObserver.of_length (length values))%float;
              min := Math_min PrimFloat.infinity values;
              max := Math_max PrimFloat.neg_infinity values;
              total := total |}
  end.

(** [getMetrics(name)]; [None] is [null]. *)
Definition getMetrics (name : string) (this : t) : option Metrics :=
  match metrics this !! name with
  | None => None
  | Some values => summarise values
  end.

(** [reset()] *)
Definition reset (_ : t) : t := {| metrics := ∅; timers := ∅ |}.

(** ** Sequences of calls *)

Inductive op : Type :=
| StartTimer (now : float) (name : string)
| EndTimer (now : float) (name : string)
| Reset.

(** One call, its exception caught. *)
Definition step (o : op) (this : t) : t :=
  match o with
  | StartTimer now name => startTimer now name this
  | EndTimer now name => snd (endTimer now name this)
  | Reset => reset this
  end.

Definition exec (ops : list op) (this : t) : t :=
  fold_left (fun this o => step o this) ops this.

(** The durations of one name as its own calls tell them: [started] is the
    reading of the running timer, [recorded] what was measured since the
    last [reset]. *)
Fixpoint history (name : string) (ops : list op) (started : option float)
  (recorded : list float) : list float :=
  match ops with
  | [] => recorded
  | StartTimer now n :: ops' =>
      history name ops' (if String.eqb n name then Some now else started)
              recorded
  | EndTimer now n :: ops' =>
      if String.eqb n name
      then match started with
           | Some startTime =>
               if falsy started then history name ops' started recorded
               else history name ops' None
                            (recorded ++ [(now - startTime)%float])
           | None => history name ops' None recorded
           end
      else history name ops' started recorded
  | Reset :: ops' => history name ops' None []
  end.

(** A list of durations as the map holds it: no entry rather than an empty
    one. *)
Definition stored (values : list float) : option (list float) :=
  match values with
  | [] => None
  | _ => Some values
  end.

End PerformanceMonitor.

Example PerformanceMonitor_sample :
  let this := PerformanceMonitor.exec
                [PerformanceMonitor.StartTimer 10 "send";
                 PerformanceMonitor.EndTimer 12.5 "send";
                 PerformanceMonitor.StartTimer 20 "send";
                 PerformanceMonitor.EndTimer 24 "send";
                 PerformanceMonitor.EndTimer 30 "send"]
                PerformanceMonitor.new in
  PerformanceMonitor.getMetrics "send" this
  = Some {| PerformanceMonitor.count := 2;
            PerformanceMonitor.avg := 3.25;
            PerformanceMonitor.min := 2.5;
            PerformanceMonitor.max := 4;
            PerformanceMonitor.total := 6.5 |}
  /\ PerformanceMonitor.getMetrics "receive" this = None.
Proof. split; vm_compute; reflexivity. Qed.

(** ** What the timers measure *)

Lemma stored_snoc (values : list float) (d : float) :
  PerformanceMonitor.stored (values ++ [d]) = Some (values ++ [d]).
Proof. now destruct values. Qed.

Lemma stored_values (m : gmap string (list float)) (name : string)
  (recorded : list float) :
  m !! name = PerformanceMonitor.stored recorded ->
  match m !! name with
  | Some values => values
  | None => []
  end = recorded.
Proof. intros ->. now destruct recorded. Qed.

Lemma endTimer_not_started (now : float) (name : string)
  (this : PerformanceMonitor.t) :
  PerformanceMonitor.falsy (PerformanceMonitor.timers this !! name) = true ->
  PerformanceMonitor.endTimer now name this
  = (PerformanceMonitor.Error (PerformanceMonitor.not_started name), this).
Proof.
  intros H. unfold PerformanceMonitor.endTimer.
  destruct (PerformanceMonitor.timers this !! name) as [startTime|];
    [now rewrite H | reflexivity].
Qed.

Lemma endTimer_started (now startTime : float) (name : string)
  (this : PerformanceMonitor.t) :
  PerformanceMonitor.timers this !! name = Some startTime ->
  PerformanceMonitor.falsy (Some startTime) = false ->
  PerformanceMonitor.endTimer now name this
  = (PerformanceMonitor.Ok (now - startTime)%float,
     {| PerformanceMonitor.metrics :=
          <[name := default [] (PerformanceMonitor.metrics this !! name)
                    ++ [(now - startTime)%float]]>
            (PerformanceMonitor.metrics this);
        PerformanceMonitor.timers :=
          delete name (PerformanceMonitor.timers this) |}).
Proof.
  intros Ht Hf. unfold PerformanceMonitor.endTimer. rewrite Ht, Hf.
  now destruct (PerformanceMonitor.metrics this !! name).
Qed.

Lemma history_exec (name : string) (ops : list PerformanceMonitor.op) :
  forall (this : PerformanceMonitor.t) (started : option float)
         (recorded : list float),
    PerformanceMonitor.timers this !! name = started ->
    PerformanceMonitor.metrics this !! name
    = PerformanceMonitor.stored recorded ->
    PerformanceMonitor.metrics (PerformanceMonitor.exec ops this) !! name
    = PerformanceMonitor.stored
        (PerformanceMonitor.history name ops started recorded).
Proof.
  induction ops as [|o ops IH]; intros this started recorded Ht Hm;
    cbn [PerformanceMonitor.exec fold_left PerformanceMonitor.history].
  - exact Hm.
  - fold (PerformanceMonitor.exec ops (PerformanceMonitor.step o this)).
    destruct o as [now n|now n|]; cbn [PerformanceMonitor.step].
    + apply IH; [|exact Hm]. cbn [PerformanceMonitor.startTimer
                                   PerformanceMonitor.timers].
      destruct (String.eqb_spec n name) as [->|Hne].
      * apply lookup_insert_eq.
      * now rewrite lookup_insert_ne.
    + destruct (String.eqb_spec n name) as [->|Hne].
      * destruct started as [startTime|].
        -- destruct (PerformanceMonitor.falsy (Some startTime)) eqn:Hf.
           ++ rewrite endTimer_not_started by now rewrite Ht.
              now apply IH.
           ++ rewrite (endTimer_started now startTime) by assumption.
              apply IH; cbn [snd PerformanceMonitor.timers
                               PerformanceMonitor.metrics].
              ** apply lookup_delete_eq.
              ** rewrite lookup_insert_eq, stored_snoc. do 2 f_equal.
                 rewrite Hm. now destruct recorded.
        -- rewrite endTimer_not_started by now rewrite Ht.
           now apply IH.
      * assert (Hsame :
          PerformanceMonitor.timers
            (snd (PerformanceMonitor.endTimer now n this)) !! name = started
          /\ PerformanceMonitor.metrics
               (snd (PerformanceMonitor.endTimer now n this)) !! name
             = PerformanceMonitor.stored recorded).
        { unfold PerformanceMonitor.endTimer.
          destruct (PerformanceMonitor.timers this !! n) as [startTime|];
            [|now split].
          destruct (PerformanceMonitor.falsy (Some startTime)); [now split|].
          cbn [snd PerformanceMonitor.timers PerformanceMonitor.metrics].
          now rewrite lookup_delete_ne, lookup_insert_ne. }
        now apply IH.
    + now apply IH.
Qed.

(** X22: when [endTimer] throws.  If no timer of that name is running, or
    the running one was started at a reading of 0, -0 or NaN, [endTimer]
    throws [Timer '<name>' was not started] and changes nothing.  Hence a
    timer is ended at most once per start, and a timer started at reading 0
    can never be ended: it stays in the map and every [endTimer] throws. *)
Theorem X22_endTimer_throws
  (this : PerformanceMonitor.t) (name : string) (now : float) :
  (PerformanceMonitor.falsy (PerformanceMonitor.timers this !! name) = true ->
   PerformanceMonitor.endTimer now name this
   = (PerformanceMonitor.Error (PerformanceMonitor.not_started name), this))
  /\ (forall earlier before d,
        PerformanceMonitor.endTimer earlier name before
        = (PerformanceMonitor.Ok d, this) ->
        PerformanceMonitor.endTimer now name this
        = (PerformanceMonitor.Error (PerformanceMonitor.not_started name), this))
  /\ (forall startTime before,
        PerformanceMonitor.falsy (Some startTime) = true ->
        this = PerformanceMonitor.startTimer startTime name before ->
        PerformanceMonitor.endTimer now name this
        = (PerformanceMonitor.Error (PerformanceMonitor.not_started name), this)
        /\ PerformanceMonitor.timers this !! name = Some startTime).
Proof.
  split; [apply endTimer_not_started|]. split.
  - intros earlier before d H. apply endTimer_not_started.
    unfold PerformanceMonitor.endTimer in H.
    destruct (PerformanceMonitor.timers before !! name) as [startTime|];
      [|discriminate].
    destruct (PerformanceMonitor.falsy (Some startTime)); [discriminate|].
    injection H as _ <-. cbn [PerformanceMonitor.timers].
    now rewrite lookup_delete_eq.
  - intros startTime before Hf ->.
    assert (Ht : PerformanceMonitor.timers
                   (PerformanceMonitor.startTimer startTime name before)
                 !! name = Some startTime) by apply lookup_insert_eq.
    split; [|exact Ht]. apply endTimer_not_started. now rewrite Ht.
Qed.

Lemma X22_witness :
  let this := PerformanceMonitor.startTimer 0 "send" PerformanceMonitor.new in
  PerformanceMonitor.endTimer 5 "send" this
  = (PerformanceMonitor.Error "Timer 'send' was not started", this)
  /\ PerformanceMonitor.endTimer 5 "receive" this
     = (PerformanceMonitor.Error "Timer 'receive' was not started", this).
Proof.
  intros this. split.
  - apply (X22_endTimer_throws this "send" 5%float). reflexivity.
  - apply (X22_endTimer_throws this "receive" 5%float). reflexivity.
Defined.

(** X23: a started timer measures once.  After [startTimer] at a reading
    other than 0 and NaN, [endTimer] returns the difference of the two
    readings, appends it to the durations of that name, and removes the
    timer; the count [getMetrics] reports for the name goes up by one, and
    the metrics of every other name stay as they were.  Starting a running
    timer again discards the earlier reading. *)
Theorem X23_start_then_end
  (this : PerformanceMonitor.t) (name : string) (t1 t2 : float) :
  PerformanceMonitor.falsy (Some t1) = false ->
  let result := PerformanceMonitor.endTimer t2 name
                  (PerformanceMonitor.startTimer t1 name this) in
  fst result = PerformanceMonitor.Ok (t2 - t1)%float
  /\ PerformanceMonitor.metrics (snd result) !! name
     = Some (default [] (PerformanceMonitor.metrics this !! name)
             ++ [(t2 - t1)%float])
  /\ PerformanceMonitor.timers (snd result)
     = delete name (PerformanceMonitor.timers this)
  /\ (PerformanceMonitor.count
        <$> PerformanceMonitor.getMetrics name (snd result))
     = Some (S (default O (PerformanceMonitor.count
                             <$> PerformanceMonitor.getMetrics name this)))
  /\ (forall other, other <> name ->
        PerformanceMonitor.getMetrics other (snd result)
        = PerformanceMonitor.getMetrics other this)
  /\ (forall t0,
        PerformanceMonitor.startTimer t1 name
          (PerformanceMonitor.startTimer t0 name this)
        = PerformanceMonitor.startTimer t1 name this).
Proof.
  intros Hf result. unfold result.
  rewrite (endTimer_started t2 t1) by (try apply lookup_insert_eq; exact Hf).
  cbn [fst snd PerformanceMonitor.metrics PerformanceMonitor.timers
       PerformanceMonitor.startTimer].
  split; [reflexivity|]. split; [apply lookup_insert_eq|].
  split; [apply delete_insert_eq|]. split; [|split].
  - unfold PerformanceMonitor.getMetrics.
    cbn [PerformanceMonitor.metrics]. rewrite lookup_insert_eq.
    destruct (PerformanceMonitor.metrics this !! name) as [values|];
      cbn [default]; [|reflexivity].
    destruct values as [|v values]; [reflexivity|].
    cbn [PerformanceMonitor.summarise app fmap option_fmap option_map
         PerformanceMonitor.count default length id].
    now rewrite length_app, Nat.add_1_r.
  - intros other Hne. unfold PerformanceMonitor.getMetrics.
    cbn [PerformanceMonitor.metrics]. now rewrite lookup_insert_ne.
  - intros t0. unfold PerformanceMonitor.startTimer.
    cbn [PerformanceMonitor.metrics PerformanceMonitor.timers].
    now rewrite insert_insert_eq.
Qed.

Lemma X23_witness :
  let result := PerformanceMonitor.endTimer 12.5 "send"
                  (PerformanceMonitor.startTimer 10 "send"
                     PerformanceMonitor.new) in
  fst result = PerformanceMonitor.Ok 2.5%float
  /\ (PerformanceMonitor.count
        <$> PerformanceMonitor.getMetrics "send" (snd result)) = Some 1%nat.
Proof.
  intros result.
  destruct (X23_start_then_end PerformanceMonitor.new "send" 10 12.5)
    as (Hd & _ & _ & Hc & _); [reflexivity|].
  split; [exact Hd | exact Hc].
Defined.

(** X24: names do not interfere.  After any sequence of [startTimer],
    [endTimer] (its exception caught) and [reset] calls on a new monitor,
    [getMetrics(name)] is what the calls for that one name and the resets
    alone determine: null if no [endTimer(name)] has succeeded since the
    last reset, and otherwise the summary of exactly the differences
    measured for that name, in order; in particular no name is ever
    reported with a count of 0. *)
Theorem X24_metrics_follow_own_history
  (ops : list PerformanceMonitor.op) (name : string) :
  let this := PerformanceMonitor.exec ops PerformanceMonitor.new in
  let durations := PerformanceMonitor.history name ops None [] in
  PerformanceMonitor.getMetrics name this
  = PerformanceMonitor.summarise durations
  /\ (PerformanceMonitor.count <$> PerformanceMonitor.getMetrics name this)
     = (length <$> PerformanceMonitor.stored durations)
  /\ (PerformanceMonitor.count <$> PerformanceMonitor.getMetrics name this)
     <> Some O.
Proof.
  intros this durations.
  pose proof (history_exec name ops PerformanceMonitor.new None []
                (lookup_empty _) (lookup_empty _)) as H.
  fold this durations in H.
  assert (Hget : PerformanceMonitor.getMetrics name this
                 = PerformanceMonitor.summarise durations).
  { unfold PerformanceMonitor.getMetrics. rewrite H. now destruct durations. }
  rewrite Hget. split; [reflexivity|].
  destruct durations; split; easy.
Qed.

(** * demo/synchronization-demo.ts *)

(** [runDemo()]: the calls it makes on the mesh.  The three payloads hold
    [Date.now()], so they are arguments; the four listeners only write to
    the console: callbacks 0 (A's message), 1 (B's message), 2 (A's sync),
    3 (B's sync).  The delays between the broadcasts run no code of the
    mesh. *)
Definition SynchronizationDemo_runDemo (data1 data2 data3 : any) : M unit :=
  nodeA ← MeshNetwork_createNode (config "node-a" 7 100);
  nodeB ← MeshNetwork_createNode (config "node-b" 7 100);
  MeshNode_onMessage nodeA 0 ;;
  MeshNode_onMessage nodeB 1 ;;
  MeshNode_onSync nodeA 2 ;;
  MeshNode_onSync nodeB 3 ;;
  MeshNode_broadcast nodeA data1 ;;
  MeshNode_broadcast nodeB data2 ;;
  MeshNode_broadcast nodeA data3.

(** X25: what the synchronisation demo does, whatever the payloads, on
    every engine whose stack has room for one nested call.  It returns; the three messages carry the steps 0, 0 and 1 (not 0, 1, 2 as
    the demo announces) and the values 7, 7, 4; each is accepted by the
    other node; no [sync] event is ever emitted and neither sync listener is
    called; at the end A is at step 2 and B at step 1. *)
Theorem X25_runDemo_never_synchronises (stack : nat)
  (data1 data2 data3 : any) :
  let result :=
    SynchronizationDemo_runDemo data1 data2 data3 (MeshNetwork_new (S stack)) in
  let m1 := {| senderId := "node-a"; globalStep := 0; patternValue := Num 7;
               data := data1 |} in
  let m2 := {| senderId := "node-b"; globalStep := 0; patternValue := Num 7;
               data := data2 |} in
  let m3 := {| senderId := "node-a"; globalStep := 1; patternValue := Num 4;
               data := data3 |} in
  fst result = Returned tt
  /\ trace (snd result)
     = [Emitted 0 "broadcast" (OfMessage m1); Received 1 m1;
        Emitted 1 "message" (OfMessage m1); Invoked 1 (OfMessage m1);
        Emitted 1 "broadcast" (OfMessage m2); Received 0 m2;
        Emitted 0 "message" (OfMessage m2); Invoked 0 (OfMessage m2);
        Emitted 0 "broadcast" (OfMessage m3); Received 1 m3;
        Emitted 1 "message" (OfMessage m3); Invoked 1 (OfMessage m3)]
  /\ (MeshNode.globalStep <$> heap (snd result) !! 0%nat) = Some 2
  /\ (MeshNode.globalStep <$> heap (snd result) !! 1%nat) = Some 1.
Proof. destruct stack; repeat split; vm_compute; reflexivity. Qed.

(** * A network of one pattern *)

(** ** Vocabulary *)

(** Every node's generator was constructed with this seed and interval. *)
Definition homogeneous (s i : Z) (w : World) : Prop :=
  forall r o, heap w !! r = Some o -> constructed s i (MeshNode.pattern o).

(** No [error] event among these actions. *)
Definition no_error (t : list action) : Prop :=
  forall node arg, ~ In (Emitted node "error" arg) t.


(** From [w] to [w'] the nodes of [L] took the message [m] without an error
    and caught up with its step; nobody else moved further than that. *)
Definition accepts (s i : Z) (m : Message) (L : list ref) (w w' : World)
  : Prop :=
  stack w' = stack w
  /\ nodes w' = nodes w
  /\ homogeneous s i w'
  /\ (exists new,
        trace w' = trace w ++ new
        /\ no_error new
        /\ forall r, In r L -> In (Emitted r "message" (OfMessage m)) new)
  /\ (forall r o, heap w !! r = Some o ->
        exists o', heap w' !! r = Some o'
          /\ (MeshNode.globalStep o' = MeshNode.globalStep o
              \/ MeshNode.globalStep o'
                 = Z.max (MeshNode.globalStep o) (globalStep m))
          /\ (In r L ->
              MeshNode.globalStep o'
              = Z.max (MeshNode.globalStep o) (globalStep m))).


(** ** Lemmas *)






Lemma homogeneous_insert (s i : Z) (w w' : World) (this : ref)
  (o' : MeshNode.t) :
  homogeneous s i w ->
  heap w' = <[this := o']> (heap w) ->
  constructed s i (MeshNode.pattern o') ->
  homogeneous s i w'.
Proof.
  intros Hw Hh Ho' r o Hr. rewrite Hh in Hr.
  apply list_lookup_insert_Some in Hr.
  destruct Hr as [(_ & <- & _)|(_ & Hr)]; [exact Ho' | now apply (Hw r)].
Qed.



Lemma accepts_mono (s i : Z) (m : Message) (L L' : list ref) (w w' : World) :
  (forall r, In r L' -> In r L) ->
  accepts s i m L w w' -> accepts s i m L' w w'.
Proof.
  intros Hsub (Hst & Hn & Hh & (new & Ht & He & Hm) & Hs).
  split; [exact Hst|]. split; [exact Hn|]. split; [exact Hh|]. split.
  { exists new. split; [exact Ht|]. split; [exact He|]. auto. }
  intros r o Hr. destruct (Hs r o Hr) as (o' & Hr' & Hd & Hin).
  exists o'. split; [exact Hr'|]. split; [exact Hd | auto].
Qed.

Section OnePattern.

Variables (frames : nat) (s i : Z) (m : Message).
Hypothesis message_computable : computable frames i (globalStep m) = true.
Hypothesis seed_exact : 0 <= s <= 94906265.
Hypothesis message_valid : patternValue m = valueAt s i (globalStep m).




End OnePattern.





(** ** One pattern, kept *)

(** A computation that, returning or throwing, keeps a property of the
    world. *)
Definition keeping (P : World -> Prop) {A : Type} (c : M A) : Prop :=
  forall w, P w -> P (snd (c w)).

Lemma keeping_bind (P : World -> Prop) {A B : Type} (c : M A) (k : A -> M B) :
  keeping P c -> (forall a, keeping P (k a)) -> keeping P (c ≫= k).
Proof.
  intros Hc Hk w Hw. unfold mbind, M_bind. specialize (Hc w Hw).
  destruct (c w) as [[a|e] w1]; cbn [snd] in *; [|exact Hc].
  now apply Hk.
Qed.

Lemma keeping_forEach (P : World -> Prop) {A : Type} (f : A -> M unit)
  (l : list A) :
  (forall x, keeping P (f x)) -> keeping P (forEach f l).
Proof.
  intros Hf. induction l as [|x l IH]; cbn [forEach].
  - intros w Hw. exact Hw.
  - apply keeping_bind; [apply Hf | intros _; exact IH].
Qed.

Section OnePatternKept.

Variables s i : Z.

Lemma homogeneous_heap (w w' : World) :
  heap w' = heap w -> homogeneous s i w -> homogeneous s i w'.
Proof. intros Hh Hw r o Hr. rewrite Hh in Hr. now apply (Hw r). Qed.

Lemma keeping_log (a : action) : keeping (homogeneous s i) (log a).
Proof. intros w. now apply homogeneous_heap. Qed.

Lemma keeping_deref (r : ref) : keeping (homogeneous s i) (deref r).
Proof. intros w Hw. unfold deref. now destruct (heap w !! r). Qed.

Lemma keeping_emit (this : ref) (name : string) (arg : payload)
  (listeners : EventEmitter -> list nat) :
  keeping (homogeneous s i) (emit this name arg listeners).
Proof.
  unfold emit. apply keeping_bind; [apply keeping_log | intros _].
  apply keeping_bind; [apply keeping_deref | intros o].
  apply keeping_forEach. intros id. apply keeping_log.
Qed.

Lemma keeping_computeValue (this : ref) (step : Z) :
  keeping (homogeneous s i) (MeshNode_computeValue this step).
Proof.
  intros w Hw. destruct (heap w !! this) as [o|] eqn:H.
  - rewrite (MeshNode_computeValue_spec this step o w H). cbn [snd].
    eapply homogeneous_insert; [exact Hw | reflexivity|].
    cbn [MeshNode.set_pattern MeshNode.pattern].
    apply constructed_computeValue. now apply (Hw this).
  - unfold MeshNode_computeValue.
    now erewrite bind_threw by (apply deref_none; exact H).
Qed.

Lemma keeping_sync (this : ref) (targetStep : Z) :
  keeping (homogeneous s i) (MeshNode_sync this targetStep).
Proof.
  intros w Hw. destruct (heap w !! this) as [o|] eqn:H.
  - rewrite (MeshNode_sync_spec this targetStep o w H).
    destruct (targetStep >? MeshNode.globalStep o); cbn [snd]; [|exact Hw].
    eapply homogeneous_insert; [exact Hw | reflexivity|].
    cbn [MeshNode.set_globalStep MeshNode.pattern]. now apply (Hw this).
  - unfold MeshNode_sync.
    now erewrite bind_threw by (apply deref_none; exact H).
Qed.

Lemma keeping_incrementStep (this : ref) :
  keeping (homogeneous s i) (MeshNode_incrementStep this).
Proof.
  intros w Hw. unfold MeshNode_incrementStep.
  destruct (heap w !! this) as [o|] eqn:H.
  - erewrite bind_returned by (apply deref_some; exact H). cbn [snd assign].
    eapply homogeneous_insert; [exact Hw | reflexivity|].
    cbn [MeshNode.set_globalStep MeshNode.pattern]. now apply (Hw this).
  - now erewrite bind_threw by (apply deref_none; exact H).
Qed.

Lemma keeping_update_emitter (this : ref) (f : EventEmitter -> EventEmitter) :
  keeping (homogeneous s i) (update_emitter this f).
Proof.
  intros w Hw. unfold update_emitter.
  destruct (heap w !! this) as [o|] eqn:H.
  - erewrite bind_returned by (apply deref_some; exact H). cbn [snd assign].
    eapply homogeneous_insert; [exact Hw | reflexivity|].
    cbn [MeshNode.set_eventEmitter MeshNode.pattern]. now apply (Hw this).
  - now erewrite bind_threw by (apply deref_none; exact H).
Qed.

Lemma keeping_receive (this : ref) (m : Message) :
  keeping (homogeneous s i) (MeshNode_receive this m).
Proof.
  unfold MeshNode_receive.
  apply keeping_bind; [apply keeping_log | intros _].
  apply keeping_bind; [apply keeping_computeValue | intros expected].
  destruct (Number.strict_ne expected (patternValue m)).
  - apply keeping_emit.
  - apply keeping_bind; [apply keeping_sync | intros _]. apply keeping_emit.
Qed.

Lemma keeping_network_broadcast (m : Message) (sender : ref) :
  keeping (homogeneous s i) (MeshNetwork_broadcast m sender).
Proof.
  intros w. unfold MeshNetwork_broadcast.
  apply keeping_forEach. intros [k r].
  destruct (String.eqb k (senderId m));
    [intros w' Hw'; exact Hw' | apply keeping_receive].
Qed.

Lemma keeping_broadcast (this : ref) (data : any) :
  keeping (homogeneous s i) (MeshNode_broadcast this data).
Proof.
  unfold MeshNode_broadcast.
  apply keeping_bind; [apply keeping_deref | intros o].
  apply keeping_bind; [apply keeping_computeValue | intros value].
  apply keeping_bind; [apply keeping_log | intros _].
  apply keeping_bind; [|intros _; apply keeping_incrementStep].
  apply keeping_forEach. intros [node|id]; cbn [call].
  - apply keeping_network_broadcast.
  - apply keeping_log.
Qed.

Lemma homogeneous_run (calls : list method_call) (w : World) :
  homogeneous s i w -> homogeneous s i (run calls w).
Proof.
  revert w. induction calls as [|c calls IH]; intros w Hw; cbn [run].
  - exact Hw.
  - apply IH. destruct c; cbn [perform];
      [now apply keeping_broadcast | now apply keeping_receive
       | now apply keeping_sync].
Qed.

Lemma homogeneous_createNode (id : string) (w : World) :
  homogeneous s i w ->
  homogeneous s i (snd (MeshNetwork_createNode (config id s i) w)).
Proof.
  intros Hw. rewrite createNode_spec. cbn [snd]. intros r o Hr.
  cbn [stack heap] in Hr. apply lookup_app_Some in Hr.
  destruct Hr as [Hr|(_ & Hr)]; [now apply (Hw r)|].
  apply list_lookup_singleton_Some in Hr. destruct Hr as (_ & <-).
  apply constructed_new.
Qed.

End OnePatternKept.

(** X27: being of one pattern is an invariant of the network.  A new
    network is of one pattern (it has no node); it stays so when a node
    with that seed and interval is created, when a node is removed, when
    listeners are registered, and through every sequence of [broadcast],
    [receive] and [sync] calls, returning or throwing, whatever the
    messages are. *)
Theorem X27_one_pattern_invariant (s i : Z) (w : World) :
  (forall stack, homogeneous s i (MeshNetwork_new stack))
  /\ (homogeneous s i w ->
      (forall id,
          homogeneous s i (snd (MeshNetwork_createNode (config id s i) w)))
      /\ (forall id, homogeneous s i (snd (MeshNetwork_removeNode id w)))
      /\ (forall calls, homogeneous s i (run calls w))
      /\ (forall this id,
             homogeneous s i (snd (MeshNode_onBroadcast this (Callback id) w))
             /\ homogeneous s i (snd (MeshNode_onMessage this id w))
             /\ homogeneous s i (snd (MeshNode_onError this id w))
             /\ homogeneous s i (snd (MeshNode_onSync this id w)))).
Proof.
  split; [intros stack r o Hr; discriminate|].
  intros Hw. split; [|split; [|split]].
  - intros id. now apply homogeneous_createNode.
  - intros id. now apply (homogeneous_heap s i w).
  - intros calls. now apply homogeneous_run.
  - intros this id. repeat split; now apply keeping_update_emitter.
Qed.

Lemma X27_witness :
  homogeneous 7 100
    (run [Broadcast 0 "{}"; Sync 1 7]
       (snd (MeshNetwork_createNode (config "node-a" 7 100)
               (MeshNetwork_new 16)))).
Proof.
  destruct (X27_one_pattern_invariant 7 100 (MeshNetwork_new 16)) as [H0 H1].
  destruct (H1 (H0 16%nat)) as (Hcreate & _).
  destruct (X27_one_pattern_invariant 7 100
              (snd (MeshNetwork_createNode (config "node-a" 7 100)
                      (MeshNetwork_new 16)))) as [_ H2].
  destruct (H2 (Hcreate _)) as (_ & _ & Hrun & _). apply Hrun.
Defined.
